(** * CSV import pipeline of [app.py]: a shallow embedding and its properties

    The development follows [import_csv_stream] (app.py, lines 79-114) and
    the pieces of the interpreter it runs on: [str.strip], [str.lower],
    [int], the compiled pattern [EMAIL_RE], [csv.reader] / [csv.DictReader]
    with the default (excel) dialect, the [customers] table of [db()] and the
    [/export] query.

    A Python [str] is a list of code points, a Python [int] is a [Z], a
    [dict] is a [gmap], a [set] is a [gset]. *)

From Stdlib Require Import ZArith NArith Ascii String DecimalString.
From stdpp Require Import gmap list sorting.

Local Open Scope Z_scope.

(** ** Python strings *)

Module Py.

(** A [str] is a sequence of Unicode code points. *)
Definition str := list N.

(** [ord c] for an ASCII character. *)
Definition ord (a : ascii) : N := N_of_ascii a.

(** A string literal of the source, all of whose characters are ASCII. *)
Definition lit (s : string) : str := map N_of_ascii (list_ascii_of_string s).

(** [str.isspace] on one character ([Py_UNICODE_ISSPACE]): the characters
    removed by [str.strip()] and matched by [\s] in a [str] pattern. *)
Definition isspace (c : N) : bool :=
  ((9 <=? c) && (c <=? 13) || (28 <=? c) && (c <=? 31) || (c =? 32)
   || (c =? 133) || (c =? 160) || (c =? 5760)
   || (8192 <=? c) && (c <=? 8202)
   || (c =? 8232) || (c =? 8233) || (c =? 8239) || (c =? 8287)
   || (c =? 12288))%N.

Fixpoint lstrip (s : str) : str :=
  match s with
  | c :: s' => if isspace c then lstrip s' else s
  | [] => []
  end.

Definition rstrip (s : str) : str := reverse (lstrip (reverse s)).

(** [s.strip()] *)
Definition strip (s : str) : str := rstrip (lstrip s).

Definition isascii (s : str) : bool := forallb (fun c => (c <? 128)%N) s.

Definition ascii_lower (c : N) : N :=
  if ((65 <=? c) && (c <=? 90))%N then (c + 32)%N else c.

(** The parts of the interpreter that are tables or settings of the
    installation rather than code of the program. *)
Class Runtime := {
  (** [str.lower] on a string that has a character outside ASCII (the
      Unicode case mapping, which also depends on the context of a
      character: final sigma) *)
  unicode_lower : str -> str;
  (** [Py_UNICODE_TODECIMAL] on a character outside ASCII: its value when
      it is a decimal digit *)
  unicode_decimal : N -> option N;
  (** [sys.get_int_max_str_digits()], which numerals of more than 640
      digits are held against; 0 means no limit *)
  int_max_str_digits : N;
  (** [csv.field_size_limit()] *)
  field_size_limit : N
}.

Section WithRuntime.
Context {rt : Runtime}.

(** [s.lower()] *)
Definition lower (s : str) : str :=
  if isascii s then map ascii_lower s else unicode_lower s.

(** *** [int(s)] for a [str] argument, base 10

    [PyLong_FromUnicodeObject]: characters below 127 are kept, other
    whitespace counts as a space, other decimal digits count as their
    ASCII digit; then [PyLong_FromString]: whitespace ([Py_ISSPACE]) is
    skipped on both sides, one sign is allowed, the digits may be
    separated by single underscores. [None] stands for [ValueError]. *)

Definition int_isspace (c : N) : bool :=
  if (c <? 127)%N then ((9 <=? c) && (c <=? 13) || (c =? 32))%N
  else isspace c.

Definition int_digit (c : N) : option N :=
  if (c <? 127)%N then
    if ((48 <=? c) && (c <=? 57))%N then Some (c - 48)%N else None
  else if isspace c then None
  else unicode_decimal c.

Fixpoint int_lskip (s : str) : str :=
  match s with
  | c :: s' => if int_isspace c then int_lskip s' else s
  | [] => []
  end.

(** The scan over digits and underscores: the value read so far, the
    number of digits, and whether the previous character was an
    underscore. It stops at the first other character and returns what is
    left of the string. *)
Fixpoint int_scan (s : str) (prev_us : bool) (acc digits : N)
  : option (N * N * str) :=
  match s with
  | [] => if prev_us then None else Some (acc, digits, [])
  | c :: s' =>
      if (c =? 95)%N then
        if prev_us then None else int_scan s' true acc digits
      else
        match int_digit c with
        | Some d => int_scan s' false (10 * acc + d)%N (digits + 1)%N
        | None => if prev_us then None else Some (acc, digits, s)
        end
  end.

Definition int_unsigned (s : str) : option N :=
  match s with
  | c :: _ =>
      if (c =? 95)%N then None
      else
        match int_scan s false 0%N 0%N with
        | Some (v, digits, rest) =>
            if (digits =? 0)%N then None
            else if ((640 <? digits) && (0 <? int_max_str_digits)
                     && (int_max_str_digits <? digits))%N then None
            else match int_lskip rest with
                 | [] => Some v
                 | _ :: _ => None
                 end
        | None => None
        end
  | [] => None
  end.

Definition int (s : str) : option Z :=
  match int_lskip s with
  | c :: s' =>
      if (c =? 43)%N then Z.of_N <$> int_unsigned s'
      else if (c =? 45)%N then (fun v => - Z.of_N v) <$> int_unsigned s'
      else Z.of_N <$> int_unsigned (c :: s')
  | [] => None
  end.

End WithRuntime.

(** A runtime for evaluating the model on concrete inputs: ASCII digits
    only, the case of characters outside ASCII left alone, the default
    limits of CPython 3.11 and later. *)
Definition plain : Runtime := {|
  unicode_lower := fun s => map ascii_lower s;
  unicode_decimal := fun _ => None;
  int_max_str_digits := 4300;
  field_size_limit := 131072
|}.

End Py.

Import Py.

(** ** Regular expressions of [re], as far as [EMAIL_RE] needs them *)

Module Re.

Inductive regex :=
| Void                       (* matches nothing *)
| Eps                        (* the empty string *)
| Class (p : N -> bool)      (* one character of a class *)
| Cat (r1 r2 : regex)
| Alt (r1 r2 : regex)
| Star (r : regex).

(** [r+] *)
Definition Plus (r : regex) : regex := Cat r (Star r).

Fixpoint nullable (r : regex) : bool :=
  match r with
  | Void => false
  | Eps => true
  | Class _ => false
  | Cat r1 r2 => nullable r1 && nullable r2
  | Alt r1 r2 => nullable r1 || nullable r2
  | Star _ => true
  end.

(** Brzozowski derivative of [r] by the character [c]. *)
Fixpoint deriv (c : N) (r : regex) : regex :=
  match r with
  | Void => Void
  | Eps => Void
  | Class p => if p c then Eps else Void
  | Cat r1 r2 =>
      if nullable r1 then Alt (Cat (deriv c r1) r2) (deriv c r2)
      else Cat (deriv c r1) r2
  | Alt r1 r2 => Alt (deriv c r1) (deriv c r2)
  | Star r1 => Cat (deriv c r1) (Star r1)
  end.

(** The whole of [s] is in the language of [r]. *)
Fixpoint fullmatch (r : regex) (s : str) : bool :=
  match s with
  | [] => nullable r
  | c :: s' => fullmatch (deriv c r) s'
  end.

(** The language of a regular expression, for stating what [fullmatch]
    decides. *)
Inductive lang : regex -> str -> Prop :=
| L_eps : lang Eps []
| L_class p c : p c = true -> lang (Class p) [c]
| L_cat r1 r2 s1 s2 : lang r1 s1 -> lang r2 s2 -> lang (Cat r1 r2) (s1 ++ s2)
| L_alt_l r1 r2 s : lang r1 s -> lang (Alt r1 r2) s
| L_alt_r r1 r2 s : lang r2 s -> lang (Alt r1 r2) s
| L_star_nil r : lang (Star r) []
| L_star_cons r s1 s2 :
    lang r s1 -> lang (Star r) s2 -> lang (Star r) (s1 ++ s2).

End Re.

(** [[^@\s]]: any character but an at sign or whitespace *)
Definition not_at_space (c : N) : bool := negb (c =? ord "@")%N && negb (isspace c).

Definition is_char (a : ascii) (c : N) : bool := (c =? ord a)%N.

(** A [$] that ends a pattern: the end of the string, or a newline that is
    the last character of the string. *)
Definition Dollar : Re.regex := Re.Alt Re.Eps (Re.Class (fun c => (c =? 10)%N)).

(** [EMAIL_RE = re.compile(r"^[^@\s]+@[^@\s]+\.[^@\s]+$")] (line 21) *)
Definition EMAIL_RE : Re.regex :=
  Re.Cat (Re.Plus (Re.Class not_at_space))
 (Re.Cat (Re.Class (is_char "@"))
 (Re.Cat (Re.Plus (Re.Class not_at_space))
 (Re.Cat (Re.Class (is_char "."))
 (Re.Cat (Re.Plus (Re.Class not_at_space))
         Dollar)))).

(** [EMAIL_RE.match(s)] is not [None]. The pattern is anchored at the
    start by [match] and at the end by its [$]. *)
Definition EMAIL_RE_match (s : str) : bool := Re.fullmatch EMAIL_RE s.

(** ** The [csv] module: [csv.reader] with the excel dialect

    Delimiter comma, quote character the double quote (which is written
    twice for a quote inside a quoted field), no escape
    character, no skipping of initial spaces, not strict. The states that
    only an escape character reaches are left out. *)

Module Csv.

Inductive ParserState :=
| START_RECORD | START_FIELD | IN_FIELD | IN_QUOTED_FIELD
| QUOTE_IN_QUOTED_FIELD | EAT_CRNL.

#[global] Instance ParserState_eq_dec : EqDecision ParserState.
Proof. solve_decision. Defined.

(** What makes the reader raise [csv.Error]. *)
Inductive Error :=
| field_larger_than_field_limit
| new_line_character_seen_in_unquoted_field.

(** The parser part of a reader object: the state, the fields of the
    record being read, and the characters of the field being read. *)
Record ReaderObj := {
  state : ParserState;
  fields : list str;
  field : str
}.

Definition parse_reset : ReaderObj :=
  {| state := START_RECORD; fields := []; field := [] |}.

Definition set_state (st : ParserState) (r : ReaderObj) : ReaderObj :=
  {| state := st; fields := fields r; field := field r |}.

Definition parse_save_field (r : ReaderObj) : ReaderObj :=
  {| state := state r; fields := fields r ++ [field r]; field := [] |}.

Section WithRuntime.
Context {rt : Runtime}.

Definition parse_add_char (r : ReaderObj) (c : N) : Error + ReaderObj :=
  if (field_size_limit <=? N.of_nat (length (field r)))%N
  then inl field_larger_than_field_limit
  else inr {| state := state r; fields := fields r; field := field r ++ [c] |}.

(** The state is set after a character was added, unless adding it
    raised. *)
Definition then_state (st : ParserState) (x : Error + ReaderObj)
  : Error + ReaderObj :=
  match x with
  | inl e => inl e
  | inr r => inr (set_state st r)
  end.

Definition is_newline (c : N) : bool := ((c =? 10) || (c =? 13))%N.
Definition delimiter : N := ord ",".
Definition quotechar : N := 34.

(** The case [START_FIELD] of [parse_process_char], which the case
    [START_RECORD] falls through to. *)
Definition start_field (r : ReaderObj) (c : option N) : Error + ReaderObj :=
  match c with
  | None => inr (set_state START_RECORD (parse_save_field r))
  | Some ch =>
      if is_newline ch then inr (set_state EAT_CRNL (parse_save_field r))
      else if (ch =? quotechar)%N then inr (set_state IN_QUOTED_FIELD r)
      else if (ch =? delimiter)%N then
        inr (set_state START_FIELD (parse_save_field r))
      else then_state IN_FIELD (parse_add_char r ch)
  end.

(** [parse_process_char]; the character [None] is the end of a line (EOL),
    which the reader feeds after the characters of each line. *)
Definition parse_process_char (r : ReaderObj) (c : option N)
  : Error + ReaderObj :=
  match state r with
  | START_RECORD =>
      match c with
      | None => inr r
      | Some ch =>
          if is_newline ch then inr (set_state EAT_CRNL r)
          else start_field r c
      end
  | START_FIELD => start_field r c
  | IN_FIELD =>
      match c with
      | None => inr (set_state START_RECORD (parse_save_field r))
      | Some ch =>
          if is_newline ch then inr (set_state EAT_CRNL (parse_save_field r))
          else if (ch =? delimiter)%N then
            inr (set_state START_FIELD (parse_save_field r))
          else parse_add_char r ch
      end
  | IN_QUOTED_FIELD =>
      match c with
      | None => inr r
      | Some ch =>
          if (ch =? quotechar)%N then inr (set_state QUOTE_IN_QUOTED_FIELD r)
          else parse_add_char r ch
      end
  | QUOTE_IN_QUOTED_FIELD =>
      match c with
      | None => inr (set_state START_RECORD (parse_save_field r))
      | Some ch =>
          if (ch =? quotechar)%N then
            then_state IN_QUOTED_FIELD (parse_add_char r ch)
          else if (ch =? delimiter)%N then
            inr (set_state START_FIELD (parse_save_field r))
          else if is_newline ch then
            inr (set_state EAT_CRNL (parse_save_field r))
          else then_state IN_FIELD (parse_add_char r ch)
      end
  | EAT_CRNL =>
      match c with
      | None => inr (set_state START_RECORD r)
      | Some ch =>
          if is_newline ch then inr r
          else inl new_line_character_seen_in_unquoted_field
      end
  end.

(** The characters of one line, then EOL. *)
Fixpoint parse_chars (r : ReaderObj) (line : str) : Error + ReaderObj :=
  match line with
  | [] => parse_process_char r None
  | c :: line' =>
      match parse_process_char r (Some c) with
      | inl e => inl e
      | inr r' => parse_chars r' line'
      end
  end.

(** The records that iterating over [csv.reader(lines)] yields, in order,
    and the error that ends the iteration if it ends by one.

    [Reader_iternext] resets the parser, then takes lines until the parser
    is back in [START_RECORD]; at the end of the input a record that was
    begun is still returned. *)
Fixpoint records_from (r : ReaderObj) (lines : list str)
  : list (list str) * option Error :=
  match lines with
  | [] =>
      if bool_decide (field r ≠ [] ∨ state r = IN_QUOTED_FIELD)
      then ([fields (parse_save_field r)], None)
      else ([], None)
  | line :: lines' =>
      match parse_chars r line with
      | inl e => ([], Some e)
      | inr r' =>
          if bool_decide (state r' = START_RECORD)
          then let '(recs, e) := records_from parse_reset lines' in
               (fields r' :: recs, e)
          else records_from r' lines'
      end
  end.

Definition reader (lines : list str) : list (list str) * option Error :=
  records_from parse_reset lines.

(** The parser after the lines [lines] were read, starting in [r]: reset
    where a record ended, in the middle of a record otherwise. The reader
    is between two records after [lines] when this is [parse_reset]. *)
Fixpoint parser_after (r : ReaderObj) (lines : list str) : Error + ReaderObj :=
  match lines with
  | [] => inr r
  | line :: lines' =>
      match parse_chars r line with
      | inl e => inl e
      | inr r' =>
          if bool_decide (state r' = START_RECORD)
          then parser_after parse_reset lines'
          else parser_after r' lines'
      end
  end.

End WithRuntime.

(** *** [csv.DictReader] *)

(** A row of a [DictReader]: a [dict] from the field names to the values
    of the row, [None] ([restval]) for a field the row is too short for.
    The entry under the key [None] ([restkey]) that a row longer than the
    header gets is not a [str] key and is left out. *)
Definition make_row (fieldnames : list str) (row : list str)
  : gmap str (option str) :=
  let d := foldl (fun d kv => <[kv.1 := Some kv.2]> d) ∅ (zip fieldnames row) in
  foldl (fun d key => <[key := None]> d) d (drop (length row) fieldnames).

(** [DictReader.__next__] does not return the rows that are [[]]. *)
Definition nonblank (row : list str) : bool :=
  match row with [] => false | _ :: _ => true end.

Definition dict_rows (fieldnames : list str) (recs : list (list str))
  : list (gmap str (option str)) :=
  make_row fieldnames <$> filter (fun row => Is_true (nonblank row)) recs.

End Csv.

(** ** [datetime] and [isoformat] *)

(** A [datetime] value, as [datetime.utcnow()] returns it (no time zone). *)
Record datetime := {
  year : N; month : N; day : N;
  hour : N; minute : N; second : N; microsecond : N
}.

(** The fields of a [datetime] are in these ranges. *)
Definition datetime_ok (d : datetime) : Prop :=
  (1 <= year d <= 9999 /\ 1 <= month d <= 12 /\ 1 <= day d <= 31 /\
   hour d < 24 /\ minute d < 60 /\ second d < 60 /\ microsecond d < 1000000)%N.

(** The last [width] decimal digits of [n], most significant first. *)
Fixpoint fixed_digits (width : nat) (n : N) : str :=
  match width with
  | O => []
  | S w => fixed_digits w (n / 10) ++ [(48 + n mod 10)%N]
  end.

(** The decimal numeral of [n]. *)
Definition decimal (n : N) : str := lit (NilZero.string_of_uint (N.to_uint n)).

(** ["%0<width>d" % n] for [n >= 0]: the numeral, filled with zeros on the
    left up to [width] characters. *)
Definition format_d (width : nat) (n : N) : str :=
  if (n <? 10 ^ N.of_nat width)%N then fixed_digits width n else decimal n.

(** [d.isoformat(timespec="seconds")]:
    ["%04d-%02d-%02dT%02d:%02d:%02d"]. *)
Definition isoformat_seconds (d : datetime) : str :=
  format_d 4 (year d) ++ lit "-" ++ format_d 2 (month d) ++ lit "-" ++
  format_d 2 (day d) ++ lit "T" ++ format_d 2 (hour d) ++ lit ":" ++
  format_d 2 (minute d) ++ lit ":" ++ format_d 2 (second d).

Definition is_digit (c : N) : bool := ((48 <=? c) && (c <=? 57))%N.

(** The shape [YYYY-MM-DDTHH:MM:SSZ]: a date and a time of day to the
    second in ISO 8601, with the letter Z for UTC. *)
Definition iso_utc_seconds (s : str) : bool :=
  match s with
  | [y1; y2; y3; y4; h1; m1; m2; h2; d1; d2; t; hh1; hh2; c1; mi1; mi2;
     c2; s1; s2; z] =>
      is_digit y1 && is_digit y2 && is_digit y3 && is_digit y4 &&
      (h1 =? ord "-")%N && is_digit m1 && is_digit m2 &&
      (h2 =? ord "-")%N && is_digit d1 && is_digit d2 &&
      (t =? ord "T")%N && is_digit hh1 && is_digit hh2 &&
      (c1 =? ord ":")%N && is_digit mi1 && is_digit mi2 &&
      (c2 =? ord ":")%N && is_digit s1 && is_digit s2 &&
      (z =? ord "Z")%N
  | _ => false
  end.

(** ** The [customers] table ([db()], lines 67-76) *)

Module Sqlite.

(** A row of [customers]: [id INTEGER PRIMARY KEY AUTOINCREMENT],
    [name TEXT NOT NULL], [email TEXT NOT NULL UNIQUE],
    [age INTEGER NOT NULL], [created_at TEXT NOT NULL]. *)
Record customer := {
  id : Z;
  name : str;
  email : str;
  age : Z;
  created_at : str
}.

(** The database behind a connection: the rows of the table, and the
    largest id that [AUTOINCREMENT] has given out ([sqlite_sequence]). *)
Record Connection := {
  customers : list customer;
  sqlite_sequence : Z
}.

(** How a statement ends: it is carried out, or [sqlite3.IntegrityError]
    is raised, or another [sqlite3.Error] is (the database is locked, the
    disk is full, ...). A statement that raises changes nothing. *)
Inductive executed :=
| Done (con : Connection)
| IntegrityError
| OtherError.

(** The next id of an [AUTOINCREMENT] key: one more than the largest id
    in the table or given out before. *)
Definition next_id (con : Connection) : Z :=
  foldr Z.max (sqlite_sequence con) (id <$> customers con) + 1.

(** [INSERT INTO customers(name,email,age,created_at) VALUES(?,?,?,?)].
    [fault] says whether the environment makes the statement fail. *)
Definition insert_customer (fault : bool) (con : Connection)
    (name email : str) (age : Z) (created_at : str) : executed :=
  if fault then OtherError
  else if bool_decide (email ∈ Sqlite.email <$> customers con)
  then IntegrityError
  else
    let i := next_id con in
    Done {| customers := customers con ++
              [{| id := i; name := name; email := email; age := age;
                  created_at := created_at |}];
            sqlite_sequence := i |}.

(** [ORDER BY id]: insertion into a list sorted by id, after the rows of
    the same id. *)
Fixpoint insert_by_id (c : customer) (l : list customer) : list customer :=
  match l with
  | [] => [c]
  | d :: l' => if id c <? id d then c :: l else d :: insert_by_id c l'
  end.

Definition order_by_id (l : list customer) : list customer :=
  foldl (fun acc c => insert_by_id c acc) [] l.

(** [SELECT name,email,age,created_at FROM customers ORDER BY id]
    (the query of [export], line 149) *)
Definition select_all (con : Connection) : list (str * str * Z * str) :=
  (fun c => (name c, email c, age c, created_at c)) <$>
  order_by_id (customers con).

End Sqlite.

(** ** The import ([import_csv_stream], lines 79-114) *)

(** What the run of an import depends on besides its input and the
    database: the clock and the failures of the database, both told by the
    number [i] of the row whose [INSERT] is executed. *)
Class Env := {
  utcnow : Z -> datetime;
  store_fault : Z -> bool
}.

(** An entry of [errors]: [{"row": i, "msg": ...}] *)
Record error := { row : Z; msg : str }.

#[global] Instance error_eq_dec : EqDecision error.
Proof. solve_decision. Defined.

Definition MSG_NAME : str := lit "name must be at least 2 characters".
Definition MSG_EMAIL : str := lit "invalid email".
(** The dash of this message is the three characters U+00E2 U+20AC U+201C
    in the source file. *)
Definition MSG_AGE : str :=
  lit "age must be an integer 1" ++ [226; 8364; 8220]%N ++ lit "120".
Definition MSG_DUPLICATE : str := lit "duplicate email (already imported)".

(** The exceptions that leave [import_csv_stream]. *)
Inductive exception :=
| ValueError_header                (* "Header must include: name,email,age" *)
| csv_Error (e : Csv.Error)
| sqlite3_Error.                   (* any but IntegrityError *)

Definition required : gset str := {[ lit "name"; lit "email"; lit "age" ]}.

(** [row.get(key) or ""] *)
Definition get_or_empty (r : gmap str (option str)) (key : str) : str :=
  match r !! key with
  | Some (Some v) => v
  | _ => []
  end.

Section Pipeline.
Context {rt : Runtime} {env : Env}.

(** The three checks on a row (lines 89-105): the message of the first
    one that fails, or the values to insert. *)
Inductive checked :=
| Rejected (m : str)
| Accepted (name email : str) (age : Z).

Definition check_row (r : gmap str (option str)) : checked :=
  let name := strip (get_or_empty r (lit "name")) in
  let email := lower (strip (get_or_empty r (lit "email"))) in
  let age_s := strip (get_or_empty r (lit "age")) in
  if bool_decide (length name < 2)%nat then Rejected MSG_NAME
  else if negb (EMAIL_RE_match email) then Rejected MSG_EMAIL
  else
    match int age_s with
    | Some age =>
        if bool_decide (age < 1 ∨ age > 120) then Rejected MSG_AGE
        else Accepted name email age
    | None => Rejected MSG_AGE
    end.

(** The body of the [for] loop (lines 89-112) for the row [r] of number
    [i], on the values of [ok] and [errors] and the state of the
    connection. [inl] is an exception that leaves the loop. *)
Definition loop_body (i : Z) (r : gmap str (option str))
    (st : Z * list error * Sqlite.Connection)
  : exception + (Z * list error * Sqlite.Connection) :=
  let '(ok, errors, con) := st in
  match check_row r with
  | Rejected m => inr (ok, errors ++ [{| row := i; msg := m |}], con)
  | Accepted name email age =>
      match Sqlite.insert_customer (store_fault i) con name email age
              (isoformat_seconds (utcnow i) ++ lit "Z") with
      | Sqlite.Done con' => inr (ok + 1, errors, con')
      | Sqlite.IntegrityError =>
          inr (ok, errors ++ [{| row := i; msg := MSG_DUPLICATE |}], con)
      | Sqlite.OtherError => inl sqlite3_Error
      end
  end.

(** [for i, row in enumerate(reader, start=i): ...] over the rows that
    the reader yields. *)
Fixpoint loop (rows : list (gmap str (option str))) (i : Z)
    (st : Z * list error * Sqlite.Connection)
  : exception + (Z * list error * Sqlite.Connection) :=
  match rows with
  | [] => inr st
  | r :: rows' =>
      match loop_body i r st with
      | inl x => inl x
      | inr st' => loop rows' (i + 1) st'
      end
  end.

(** The header test of line 82 on [reader.fieldnames or []]. *)
Definition header_ok (fieldnames : list str) : bool :=
  bool_decide (required ⊆ list_to_set ((fun c => lower (strip c)) <$> fieldnames)).

(** [import_csv_stream(text_stream)] on the database [db]: what it returns
    or raises, and the database afterwards. [text_stream] is the sequence
    of lines that iterating over the stream gives. When an exception
    leaves the [with] block the transaction is rolled back; otherwise it
    is committed. *)
Definition import_csv_stream (text_stream : list str) (db : Sqlite.Connection)
  : (exception + (Z * list error)) * Sqlite.Connection :=
  match Csv.reader text_stream with
  | ([], Some e) => (inl (csv_Error e), db)
  | (recs, e) =>
      let fieldnames := default [] (head recs) in
      if negb (header_ok fieldnames) then (inl ValueError_header, db)
      else
        match loop (Csv.dict_rows fieldnames (tail recs)) 2 (0, [], db) with
        | inl x => (inl x, db)
        | inr (ok, errors, con) =>
            match e with
            | Some e => (inl (csv_Error e), db)
            | None => (inr (ok, errors), con)
            end
        end
  end.

End Pipeline.

(** ** The text stream of [upload] and [obs_event] *)

(** The lines of [io.TextIOWrapper(..., newline="")] over the text [s]: a
    line ends after a line feed, after a carriage return, or after a
    carriage return followed by a line feed, and keeps its ending. [cur]
    holds the characters of the line being read. *)
Fixpoint lines_from (cur : str) (s : str) : list str :=
  match s with
  | [] => match cur with [] => [] | _ :: _ => [cur] end
  | c :: s' =>
      if (c =? 10)%N then (cur ++ [c]) :: lines_from [] s'
      else if (c =? 13)%N then
        match s' with
        | d :: s'' =>
            if (d =? 10)%N then (cur ++ [c; d]) :: lines_from [] s''
            else (cur ++ [c]) :: lines_from [] s'
        | [] => [cur ++ [c]]
        end
      else lines_from (cur ++ [c]) s'
  end.

Definition text_lines (s : str) : list str := lines_from [] s.

(** The import of a text, as [upload] (lines 166-169) and [obs_event]
    (lines 215-217) run it on the decoded bytes of a file. *)
Definition ingest {rt : Runtime} {env : Env} (text : str) (db : Sqlite.Connection)
  : (exception + (Z * list error)) * Sqlite.Connection :=
  import_csv_stream (text_lines text) db.

(** ** Runs of the loop, for stating what it leaves behind *)

(** [enumerate(l, start)] *)
Fixpoint enumerate {A} (start : Z) (l : list A) : list (Z * A) :=
  match l with
  | [] => []
  | x :: l' => (start, x) :: enumerate (start + 1) l'
  end.

Section Traces.
Context {rt : Runtime} {env : Env}.

Definition emails (con : Sqlite.Connection) : list str :=
  Sqlite.email <$> Sqlite.customers con.

(** The record that the [INSERT] of row [i] adds to the table. *)
Definition new_customer (con : Sqlite.Connection) (i : Z)
    (name email : str) (age : Z) : Sqlite.customer :=
  {| Sqlite.id := Sqlite.next_id con; Sqlite.name := name;
     Sqlite.email := email; Sqlite.age := age;
     Sqlite.created_at := isoformat_seconds (utcnow i) ++ lit "Z" |}.

Definition with_customer (con : Sqlite.Connection) (c : Sqlite.customer)
  : Sqlite.Connection :=
  {| Sqlite.customers := Sqlite.customers con ++ [c];
     Sqlite.sqlite_sequence := Sqlite.id c |}.

(** [run i rows con errs added con']: the loop over [rows], numbered from
    [i], on the connection [con] goes through without an exception,
    appends [errs] to the list of errors, inserts the records [added] and
    leaves the connection [con']. One rule per way through the body. *)
Inductive run : Z -> list (gmap str (option str)) -> Sqlite.Connection ->
                list error -> list Sqlite.customer -> Sqlite.Connection -> Prop :=
| run_done i con : run i [] con [] [] con
| run_rejected i r rows con m errs added con' :
    check_row r = Rejected m ->
    run (i + 1) rows con errs added con' ->
    run i (r :: rows) con ({| row := i; msg := m |} :: errs) added con'
| run_duplicate i r rows con name email age errs added con' :
    check_row r = Accepted name email age ->
    email ∈ emails con ->
    run (i + 1) rows con errs added con' ->
    run i (r :: rows) con ({| row := i; msg := MSG_DUPLICATE |} :: errs) added con'
| run_inserted i r rows con name email age errs added con' :
    check_row r = Accepted name email age ->
    email ∉ emails con ->
    run (i + 1) rows (with_customer con (new_customer con i name email age))
        errs added con' ->
    run i (r :: rows) con errs (new_customer con i name email age :: added) con'.

(** For a numbered row, the columns of the record that it added to the
    table, when it is not among the errors. *)
Definition inserted_record (errors : list error)
    (ir : Z * gmap str (option str)) : option (str * str * Z * str) :=
  if bool_decide (ir.1 ∈ row <$> errors) then None
  else
    match check_row ir.2 with
    | Accepted name email age =>
        Some (name, email, age, isoformat_seconds (utcnow ir.1) ++ lit "Z")
    | Rejected _ => None
    end.

Definition columns (c : Sqlite.customer) : str * str * Z * str :=
  (Sqlite.name c, Sqlite.email c, Sqlite.age c, Sqlite.created_at c).

End Traces.

(** ** Concrete settings for running the model *)

(** A clock that reads 2024-05-07 03:04:00 at every row, and a database
    that never fails. *)
Definition steady : Env := {|
  utcnow := fun _ => {| year := 2024; month := 5; day := 7; hour := 3;
                        minute := 4; second := 0; microsecond := 0 |};
  store_fault := fun _ => false
|}.

(** A database whose [INSERT] fails at row 3. *)
Definition failing_at_3 : Env := {|
  utcnow := utcnow (Env := steady);
  store_fault := fun i => bool_decide (i = 3)
|}.

Definition empty_db : Sqlite.Connection :=
  {| Sqlite.customers := []; Sqlite.sqlite_sequence := 0 |}.

(** The row [{"name": name, "email": email, "age": age}]. *)
Definition row_of (name email age : string) : gmap str (option str) :=
  Csv.make_row [lit "name"; lit "email"; lit "age"]
               [lit name; lit email; lit age].

(** U+FEFF *)
Definition BOM : N := 65279.

(** A runtime with a field size limit of 5, for running the parser on
    short fields. *)
Definition short_fields : Runtime := {|
  unicode_lower := fun s => s;
  unicode_decimal := fun _ => None;
  int_max_str_digits := 0;
  field_size_limit := 5
|}.

(** The header and the first row of the sample file of [/sample]
    (line 143). *)
Definition sample_text : str :=
  lit "name,email,age" ++ [10%N] ++ lit "Alice,alice@example.com,30" ++ [10%N].

Definition alice : Sqlite.customer := {|
  Sqlite.id := 1; Sqlite.name := lit "Alice";
  Sqlite.email := lit "alice@example.com"; Sqlite.age := 30;
  Sqlite.created_at := lit "2024-05-07T03:04:00Z"
|}.

(** The scenario of three rows: one good row, one bad email, one bad
    age. *)
Definition scenario : list str :=
  [lit "name,email,age" ++ [10%N];
   lit "Alice,alice@example.com,30" ++ [10%N];
   lit "Bob,bob@example,25" ++ [10%N];
   lit "Cara,cara@example.com,200" ++ [10%N]].

(** A table of two records, one with a comma in the name. *)
Definition bob : Sqlite.customer := {|
  Sqlite.id := 2; Sqlite.name := lit "Bob, Jr";
  Sqlite.email := lit "bob@example.org"; Sqlite.age := 25;
  Sqlite.created_at := lit "2024-05-07T03:05:00Z"
|}.

Definition two_customers : Sqlite.Connection :=
  {| Sqlite.customers := [alice; bob]; Sqlite.sqlite_sequence := 2 |}.


(** ** What a second import of the same rows reports *)

(** For a numbered row, the error of a row none of whose values can be
    inserted any more: the message of its failed check, or the duplicate
    message. *)
Definition reported {rt : Runtime} (ir : Z * gmap str (option str)) : error :=
  {| row := ir.1;
     msg := match check_row ir.2 with
            | Rejected m => m
            | Accepted _ _ _ => MSG_DUPLICATE
            end |}.

(** The rows that [DictReader] yields for a stream. *)
Definition data_rows {rt : Runtime} (text_stream : list str) : list (gmap str (option str)) :=
  Csv.dict_rows (default [] (head (Csv.reader text_stream).1))
                (tail (Csv.reader text_stream).1).

(** ** The listing of [home] and [upload] (lines 138 and 188) *)

(** [SELECT id,name,email,age,created_at FROM customers ORDER BY id DESC
    LIMIT 50]. The ids of a table are different from each other, so that
    the decreasing order is the increasing one read backwards. *)
Definition select_recent (con : Sqlite.Connection)
  : list (Z * str * str * Z * str) :=
  take 50
    ((fun c => (Sqlite.id c, Sqlite.name c, Sqlite.email c, Sqlite.age c,
                Sqlite.created_at c)) <$>
     reverse (Sqlite.order_by_id (Sqlite.customers con))).

(** A row of that listing without its id. *)
Definition without_id (r : Z * str * str * Z * str) : str * str * Z * str :=
  let '(_, name, email, age, created_at) := r in (name, email, age, created_at).

(** ** [csv.writer] and [export] (lines 146-156) *)

Module CsvWriter.

(** A field is quoted when it has a delimiter, a quote character or a
    character of the line terminator in it ([QUOTE_MINIMAL]). *)
Definition needs_quotes (field : str) : bool :=
  existsb (fun c => (c =? Csv.delimiter) || (c =? Csv.quotechar) ||
                    (c =? 13) || (c =? 10))%N field.

(** The characters of a quoted field: each quote character twice. *)
Definition doubled (field : str) : str :=
  flat_map (fun c => if (c =? Csv.quotechar)%N then [c; c] else [c]) field.

Definition quoted (field : str) : str :=
  [Csv.quotechar] ++ doubled field ++ [Csv.quotechar].

Definition write_field (field : str) : str :=
  if needs_quotes field then quoted field else field.

(** [",".join(l)] *)
Fixpoint join (l : list str) : str :=
  match l with
  | [] => []
  | x :: l' =>
      match l' with
      | [] => x
      | _ :: _ => x ++ [Csv.delimiter] ++ join l'
      end
  end.

(** What [writer.writerow(fields)] writes, for fields that are strings:
    the fields, quoted where needed, between commas, and the line
    terminator, a carriage return and a line feed. A row of one empty
    field is written as two quote characters. *)
Definition writerow (fields : list str) : str :=
  match fields with
  | [[]] => quoted [] ++ [13; 10]%N
  | _ => join (write_field <$> fields) ++ [13; 10]%N
  end.

End CsvWriter.

(** [str(n)] for an [int] *)
Definition str_int (n : Z) : str :=
  if n <? 0 then lit "-" ++ decimal (Z.to_N (- n)) else decimal (Z.to_N n).

(** The text that [export] builds in [sio] (lines 148-154): the header
    and a line for each record of the table, by id. The response of
    [export] is this text encoded in UTF-8. *)
Definition export_rows (con : Sqlite.Connection) : list (list str) :=
  [lit "name"; lit "email"; lit "age"; lit "created_at"] ::
  ((fun r : str * str * Z * str =>
      let '(name, email, age, created_at) := r in
      [name; email; str_int age; created_at]) <$> Sqlite.select_all con).

Definition export_text (con : Sqlite.Connection) : str :=
  flat_map CsvWriter.writerow (export_rows con).

(** ** Reading a text by characters *)

Section ReadingText.
Context {rt : Runtime}.

(** The characters [s] from the parser [r] on, without the ends of
    lines: what [parse_chars] does before it comes to the end of a
    line. *)
Fixpoint feed (r : Csv.ReaderObj) (s : str) : Csv.Error + Csv.ReaderObj :=
  match s with
  | [] => inr r
  | c :: s' =>
      match Csv.parse_process_char r (Some c) with
      | inl e => inl e
      | inr r' => feed r' s'
      end
  end.

(** The end of a line in the parser [r], and [k] for what follows: a
    record is given out and the parser reset when the record is over. *)
Definition line_end (r : Csv.ReaderObj)
    (k : Csv.ReaderObj -> list (list str) * option Csv.Error)
  : list (list str) * option Csv.Error :=
  match Csv.parse_process_char r None with
  | inl e => ([], Some e)
  | inr r' =>
      if bool_decide (Csv.state r' = Csv.START_RECORD)
      then let '(recs, e) := k Csv.parse_reset in (Csv.fields r' :: recs, e)
      else k r'
  end.

(** The records of the text [s] read from the parser [r] on, the lines
    being cut as [text_lines] cuts them; [pending] says whether the line
    that is being read has a character yet. *)
Fixpoint records_of_text (r : Csv.ReaderObj) (pending : bool) (s : str)
  : list (list str) * option Csv.Error :=
  match s with
  | [] =>
      if pending then line_end r (fun r' => Csv.records_from r' [])
      else Csv.records_from r []
  | c :: s' =>
      match Csv.parse_process_char r (Some c) with
      | inl e => ([], Some e)
      | inr r1 =>
          if (c =? 10)%N then line_end r1 (fun r' => records_of_text r' false s')
          else if (c =? 13)%N then
            match s' with
            | d :: s'' =>
                if (d =? 10)%N then
                  match Csv.parse_process_char r1 (Some d) with
                  | inl e => ([], Some e)
                  | inr r2 => line_end r2 (fun r' => records_of_text r' false s'')
                  end
                else line_end r1 (fun r' => records_of_text r' false s')
            | [] => line_end r1 (fun r' => records_of_text r' false s')
            end
          else records_of_text r1 true s'
      end
  end.

End ReadingText.

(** How the parser stands after a field [f] of a record whose fields
    before are [fs]: in the field, or after the closing quote, or at the
    start of a field, the field being empty. *)
Definition after_field (fs : list str) (f : str) (r : Csv.ReaderObj) : Prop :=
  r = Csv.Build_ReaderObj Csv.IN_FIELD fs f ∨ r = Csv.Build_ReaderObj Csv.QUOTE_IN_QUOTED_FIELD fs f ∨
  (r = Csv.Build_ReaderObj Csv.START_FIELD fs [] ∧ f = []).

(** The parser is not in a quoted field. *)
Definition unquoted (r : Csv.ReaderObj) : Prop :=
  Csv.state r ≠ Csv.IN_QUOTED_FIELD ∧ Csv.state r ≠ Csv.QUOTE_IN_QUOTED_FIELD.

(** The text [s] with a carriage return put before each line feed: the
    line ends of Windows for those of Unix. *)
Definition crlf (s : str) : str :=
  flat_map (fun c => if (c =? 10)%N then [13; 10]%N else [c]) s.

(** ** The routes [home], [upload] and [obs_event] *)

(** [s.endswith(suffix)] *)
Definition endswith (s suffix : str) : bool :=
  bool_decide (drop (length s - length suffix) s = suffix).

(** What a route returns: a text with a status, or the page rendered
    from [rows], [summary] and [errors] (with the status 200). The HTML
    of the page is not modelled, the values it is rendered from are. *)
Inductive response :=
| Text (body : str) (status : Z)
| Page (rows : list (Z * str * str * Z * str))
       (summary : option (Z * Z)) (errors : option (list error)).

(** [home()] (lines 135-139) *)
Definition home (db : Sqlite.Connection) : response :=
  Page (select_recent db) None None.

(** [upload()] (lines 158-189) for a request whose part "file", when it
    has one, has the name [filename] and data that are the UTF-8 encoding
    of [text]. The result is the response, or the exception that leaves
    the function (only [ValueError] is caught), and the database
    afterwards. The copy of the file to the object store (lines 173-185)
    does not count for either: what it raises is caught and printed. *)
Definition upload {rt : Runtime} {env : Env}
    (file : option (str * str)) (db : Sqlite.Connection)
  : (exception + response) * Sqlite.Connection :=
  match file with
  | None => (inr (Text (lit "No file part") 400), db)
  | Some (filename, text) =>
      if negb (endswith (lower filename) (lit ".csv"))
      then (inr (Text (lit "Please upload a .csv file") 400), db)
      else
        match import_csv_stream (text_lines text) db with
        | (inl ValueError_header, db') =>
            (inr (Text (lit "Header must include: name,email,age") 400), db')
        | (inl x, db') => (inl x, db')
        | (inr (ok, errors), db') =>
            (inr (Page (select_recent db')
                       (Some (ok, Z.of_nat (length errors))) (Some errors)), db')
        end
  end.

(** *** The payload of [obs_event]: JSON values as Python has them *)

#[warnings="-register-all"]
Inductive json :=
| JNull
| JBool (b : bool)
| JNum (n : Z)
| JStr (s : str)
| JList (l : list json)
| JDict (d : list (str * json)).

(** The truth value of a value, for [or] and [not]. *)
Definition truthy (j : json) : bool :=
  match j with
  | JNull => false
  | JBool b => b
  | JNum n => negb (n =? 0)
  | JStr s => match s with [] => false | _ :: _ => true end
  | JList l => match l with [] => false | _ :: _ => true end
  | JDict d => match d with [] => false | _ :: _ => true end
  end.

(** [x or y] *)
Definition or_else (x y : json) : json := if truthy x then x else y.

(** The exceptions that leave [obs_event]: they are raised outside its
    [try]. *)
Inductive route_error := AttributeError | TypeError.

(** The value of a key in the entries of a dict, the last entry of the
    key counting. *)
Fixpoint assoc (d : list (str * json)) (key : str) : option json :=
  match d with
  | [] => None
  | (k, v) :: d' =>
      match assoc d' key with
      | Some v' => Some v'
      | None => if bool_decide (k = key) then Some v else None
      end
  end.

(** [j.get(key)]: [None] for a key that is not there; only a dict has
    [get]. *)
Definition dict_get (j : json) (key : str) : route_error + json :=
  match j with
  | JDict d => inr (default JNull (assoc d key))
  | _ => inl AttributeError
  end.

(** [(((rec.get("s3") or {}).get(outer) or {}).get(leaf)) or ""]
    (lines 204 and 205) *)
Definition s3_name (rec : json) (outer leaf : str) : route_error + json :=
  match dict_get rec (lit "s3") with
  | inl x => inl x
  | inr s3 =>
      match dict_get (or_else s3 (JDict [])) outer with
      | inl x => inl x
      | inr o =>
          match dict_get (or_else o (JDict [])) leaf with
          | inl x => inl x
          | inr n => inr (or_else n (JStr []))
          end
      end
  end.

(** An entry of [details]. The text of the error of a file that failed
    is not modelled. *)
Inductive item :=
| Skipped (bucket : json) (object : str)
| Imported (bucket : json) (object : str) (inserted errors : Z)
| Failed (bucket : json) (object : str).

(** What [obs_event] depends on besides the payload and the database:
    the object store, which gives the text of an object or nothing when
    fetching it raises or its data are not UTF-8, and the clock and the
    failures of the database during the import of the record of number
    [k] of the payload. *)
Class Store := {
  get_object : json -> str -> option str;
  import_env : nat -> Env
}.

Section ObsEvent.
Context {rt : Runtime} {store : Store}.

(** The body of the loop of [obs_event] (lines 204-224) for the record
    [rec] of number [k]. *)
Definition obs_record (k : nat) (rec : json)
    (st : Z * Z * list item * Sqlite.Connection)
  : route_error + (Z * Z * list item * Sqlite.Connection) :=
  let '(total_ok, total_err, details, db) := st in
  match s3_name rec (lit "bucket") (lit "name") with
  | inl x => inl x
  | inr bucket =>
      match s3_name rec (lit "object") (lit "key") with
      | inl x => inl x
      | inr obj =>
          if negb (truthy bucket) || negb (truthy obj) then inr st
          else
            match obj with
            | JStr key =>
                if negb (endswith (lower key) (lit ".csv"))
                then inr (total_ok, total_err,
                          details ++ [Skipped bucket key], db)
                else
                  match get_object bucket key with
                  | None => inr (total_ok, total_err,
                                 details ++ [Failed bucket key], db)
                  | Some text =>
                      match import_csv_stream (env := import_env k)
                              (text_lines text) db with
                      | (inl _, db') =>
                          inr (total_ok, total_err,
                               details ++ [Failed bucket key], db')
                      | (inr (ok, errors), db') =>
                          inr (total_ok + ok,
                               total_err + Z.of_nat (length errors),
                               details ++ [Imported bucket key ok
                                             (Z.of_nat (length errors))],
                               db')
                      end
                  end
            | _ => inl AttributeError
            end
      end
  end.

Fixpoint obs_loop (records : list json) (k : nat)
    (st : Z * Z * list item * Sqlite.Connection)
  : (route_error + (Z * Z * list item)) * Sqlite.Connection :=
  match records with
  | [] => (inr st.1, st.2)
  | rec :: records' =>
      match obs_record k rec st with
      | inl x => (inl x, st.2)
      | inr st' => obs_loop records' (S k) st'
      end
  end.

(** [obs_event()] (lines 196-226) for a request whose body is the JSON
    value [body], or is not JSON ([None]). It returns the totals and the
    details, with the status 200, or raises; the database afterwards
    holds what the imports before the exception committed. *)
Definition obs_event (body : option json) (db : Sqlite.Connection)
  : (route_error + (Z * Z * list item)) * Sqlite.Connection :=
  let payload := or_else (default JNull body) (JDict []) in
  match dict_get payload (lit "Records") with
  | inl x => (inl x, db)
  | inr r =>
      match or_else r (JList []) with
      | JList records => obs_loop records 0 (0, 0, [], db)
      | JNum _ | JBool _ | JNull => (inl TypeError, db)
      | JStr _ | JDict _ => (inl AttributeError, db)
      end
  end.

End ObsEvent.

(** The counts, the bucket and the object of an entry of [details]. *)
Definition inserted_of (it : item) : Z :=
  match it with Imported _ _ inserted _ => inserted | _ => 0 end.

Definition errors_of (it : item) : Z :=
  match it with Imported _ _ _ errors => errors | _ => 0 end.

Definition item_object (it : item) : json * str :=
  match it with
  | Skipped bucket object | Imported bucket object _ _ | Failed bucket object =>
      (bucket, object)
  end.

(** The kind of an entry fits the name of its object: skipped when the
    name does not end in .csv, imported or failed when it does. *)
Definition item_kind_ok {rt : Runtime} (it : item) : Prop :=
  match it with
  | Skipped _ key => endswith (lower key) (lit ".csv") = false
  | Imported _ key _ _ | Failed _ key => endswith (lower key) (lit ".csv") = true
  end.

Definition sum_list (l : list Z) : Z := foldr Z.add 0 l.

(** A record of a bucket notification for the object [key] of [bucket],
    with the members that [obs_event] reads, and the payload that holds
    such records. *)
Definition event_record (bucket key : str) : json :=
  JDict [(lit "s3",
          JDict [(lit "bucket", JDict [(lit "name", JStr bucket)]);
                 (lit "object", JDict [(lit "key", JStr key)])])].

Definition event (objects : list (str * str)) : json :=
  JDict [(lit "Records", JList ((fun bk => event_record bk.1 bk.2) <$> objects))].

(** A bucket and a key that are both not empty. *)
Definition named (bk : str * str) : bool :=
  match bk with
  | (_ :: _, _ :: _) => true
  | _ => false
  end.

(** An object store whose objects all hold the sample file, with the
    steady clock and a database that never fails. *)
Definition sample_store : Store := {|
  get_object := fun _ _ => Some sample_text;
  import_env := fun _ => steady
|}.

(** * Properties *)

Lemma messages_distinct :
  MSG_NAME ≠ MSG_EMAIL ∧ MSG_NAME ≠ MSG_AGE ∧ MSG_NAME ≠ MSG_DUPLICATE ∧
  MSG_EMAIL ≠ MSG_AGE ∧ MSG_EMAIL ≠ MSG_DUPLICATE ∧ MSG_AGE ≠ MSG_DUPLICATE.
Proof. repeat split; intros E; vm_compute in E; discriminate E. Qed.

(** ** What [EMAIL_RE] matches *)

Section Regex.
Import Re.

Lemma lang_eps_inv s : lang Eps s <-> s = [].
Proof. split; [by inversion 1|intros ->; constructor]. Qed.

Lemma lang_void_inv s : lang Void s <-> False.
Proof. split; [by inversion 1|done]. Qed.

Lemma lang_class_inv p s : lang (Class p) s <-> ∃ c, s = [c] ∧ p c = true.
Proof.
  split; [inversion 1; eauto|]. intros (c & -> & Hc). by constructor.
Qed.

Lemma lang_cat_inv r1 r2 s :
  lang (Cat r1 r2) s <-> ∃ s1 s2, s = s1 ++ s2 ∧ lang r1 s1 ∧ lang r2 s2.
Proof.
  split; [inversion 1; eauto|]. intros (s1 & s2 & -> & H1 & H2). by constructor.
Qed.

Lemma lang_alt_inv r1 r2 s : lang (Alt r1 r2) s <-> lang r1 s ∨ lang r2 s.
Proof.
  split; [inversion 1; eauto|]. intros [?|?]; [by apply L_alt_l|by apply L_alt_r].
Qed.

(** A non-empty string of [r*] begins with a non-empty string of [r]. *)
Lemma lang_star_cons_inv r c s :
  lang (Star r) (c :: s) ->
  ∃ s1 s2, s = s1 ++ s2 ∧ lang r (c :: s1) ∧ lang (Star r) s2.
Proof.
  remember (Star r) as r' eqn:Hr. remember (c :: s) as t eqn:Ht.
  intros Hl. revert Hr Ht.
  induction Hl as [| | | | | |r0 s1 s2 H1 _ H2 IH2]; try done.
  intros [= ->] Hs. destruct s1 as [|c' s1].
  - by apply IH2.
  - injection Hs as -> <-. eauto.
Qed.

Lemma lang_nullable r : nullable r = true <-> lang r [].
Proof.
  induction r as [| | |r1 IH1 r2 IH2|r1 IH1 r2 IH2|r IH]; simpl.
  - by rewrite lang_void_inv.
  - by rewrite lang_eps_inv.
  - rewrite lang_class_inv. split; [done|]. by intros (c & ? & _).
  - rewrite andb_true_iff, IH1, IH2, lang_cat_inv. split.
    + intros [H1 H2]. by exists [], [].
    + intros (s1 & s2 & Hs & H1 & H2).
      symmetry in Hs. apply app_eq_nil in Hs as [-> ->]. done.
  - by rewrite orb_true_iff, IH1, IH2, lang_alt_inv.
  - split; [constructor|done].
Qed.

Lemma lang_deriv c r : ∀ s, lang (deriv c r) s <-> lang r (c :: s).
Proof.
  induction r as [| |p|r1 IH1 r2 IH2|r1 IH1 r2 IH2|r IH]; intros s; simpl.
  - by rewrite !lang_void_inv.
  - rewrite lang_void_inv, lang_eps_inv. done.
  - rewrite lang_class_inv. destruct (p c) eqn:Hp.
    + rewrite lang_eps_inv. split; [intros ->; eauto|].
      intros (c' & Hs & _). by simplify_eq.
    + rewrite lang_void_inv. split; [done|].
      intros (c' & Hs & Hc). simplify_eq. congruence.
  - assert (lang (Cat (deriv c r1) r2) s <->
            ∃ s1 s2, s = s1 ++ s2 ∧ lang r1 (c :: s1) ∧ lang r2 s2) as Hcat.
    { rewrite lang_cat_inv. split; intros (s1 & s2 & -> & H1 & H2);
        exists s1, s2; by rewrite ?IH1 in *. }
    rewrite (lang_cat_inv r1 r2). destruct (nullable r1) eqn:Hn.
    + rewrite lang_alt_inv, Hcat, IH2. split.
      * intros [(s1 & s2 & -> & H1 & H2)|H2].
        -- by exists (c :: s1), s2.
        -- exists [], (c :: s). by rewrite <- lang_nullable.
      * intros (s1 & s2 & Hs & H1 & H2). destruct s1 as [|c' s1].
        -- right. simpl in Hs. by subst s2.
        -- injection Hs as <- ->. left. eauto.
    + rewrite Hcat. split.
      * intros (s1 & s2 & -> & H1 & H2). by exists (c :: s1), s2.
      * intros (s1 & s2 & Hs & H1 & H2). destruct s1 as [|c' s1].
        -- apply lang_nullable in H1. congruence.
        -- injection Hs as <- ->. eauto.
  - by rewrite !lang_alt_inv, IH1, IH2.
  - rewrite lang_cat_inv. split.
    + intros (s1 & s2 & -> & H1 & H2). apply IH in H1.
      by apply (L_star_cons r (c :: s1) s2).
    + intros (s1 & s2 & -> & H1 & H2)%lang_star_cons_inv.
      exists s1, s2. by rewrite IH.
Qed.

(** [fullmatch] decides the language. *)
Lemma fullmatch_lang s : ∀ r, fullmatch r s = true <-> lang r s.
Proof.
  induction s as [|c s IH]; intros r; simpl.
  - apply lang_nullable.
  - by rewrite IH, lang_deriv.
Qed.

Lemma lang_star_class p s : lang (Star (Class p)) s <-> forallb p s = true.
Proof.
  induction s as [|c s IH]; simpl.
  - split; [done|constructor].
  - rewrite andb_true_iff, <- IH. split.
    + intros (s1 & s2 & Hs & (c' & Heq & Hc)%lang_class_inv & H2)%lang_star_cons_inv.
      by simplify_eq.
    + intros [Hc Hs]. apply (L_star_cons (Class p) [c] s); [by constructor|done].
Qed.

Lemma lang_plus_class p s :
  lang (Plus (Class p)) s <-> s ≠ [] ∧ forallb p s = true.
Proof.
  unfold Plus. rewrite lang_cat_inv. split.
  - intros (s1 & s2 & -> & (c & -> & Hc)%lang_class_inv & H2%lang_star_class).
    split; [done|]. simpl. by rewrite Hc, H2.
  - intros [Hne Hs]. destruct s as [|c s]; [done|].
    simpl in Hs. apply andb_true_iff in Hs as [Hc Hs].
    exists [c], s. split; [done|]. split; [by constructor|by apply lang_star_class].
Qed.

(** The strings that [EMAIL_RE.match] accepts: a local part, an at sign,
    a domain, a dot and a last part, all three non-empty and free of at
    signs and whitespace (the domain and the last part are told apart by
    any one of the dots after the at sign), and possibly one line feed at
    the very end, which [$] lets through. *)
Lemma EMAIL_RE_shape (s : str) :
  EMAIL_RE_match s = true <->
  ∃ local domain tld nl,
    s = local ++ [ord "@"] ++ domain ++ [ord "."] ++ tld ++ nl ∧
    (nl = [] ∨ nl = [10%N]) ∧
    (local ≠ [] ∧ forallb not_at_space local = true) ∧
    (domain ≠ [] ∧ forallb not_at_space domain = true) ∧
    (tld ≠ [] ∧ forallb not_at_space tld = true).
Proof.
  unfold EMAIL_RE_match, EMAIL_RE, Dollar. rewrite fullmatch_lang. split.
  - intros (local & s1 & -> & Hl%lang_plus_class &
            (a & s2 & -> & (c1 & -> & Ha)%lang_class_inv &
             (domain & s3 & -> & Hd%lang_plus_class &
              (d & s4 & -> & (c2 & -> & Hdot)%lang_class_inv &
               (tld & nl & -> & Ht%lang_plus_class & Hnl%lang_alt_inv
               )%lang_cat_inv)%lang_cat_inv)%lang_cat_inv)%lang_cat_inv)%lang_cat_inv.
    apply N.eqb_eq in Ha as ->, Hdot as ->.
    exists local, domain, tld, nl. split; [done|]. split; [|done].
    destruct Hnl as [->%lang_eps_inv|(c & -> & ->%N.eqb_eq)%lang_class_inv]; auto.
  - intros (local & domain & tld & nl & -> & Hnl & Hl & Hd & Ht).
    apply L_cat; [by apply lang_plus_class|].
    apply L_cat; [by constructor|].
    apply L_cat; [by apply lang_plus_class|].
    apply L_cat; [by constructor|].
    apply L_cat; [by apply lang_plus_class|].
    destruct Hnl as [->| ->]; [apply L_alt_l; constructor|].
    apply L_alt_r. by constructor.
Qed.

End Regex.

Section Checks.
Context {rt : Runtime} {env : Env}.

(** The cases of [check_row], one lemma per branch. *)
Lemma check_row_name r :
  (length (strip (get_or_empty r (lit "name"))) < 2)%nat ->
  check_row r = Rejected MSG_NAME.
Proof. intros Hn. unfold check_row. by rewrite bool_decide_eq_true_2. Qed.

Lemma check_row_email r :
  (2 <= length (strip (get_or_empty r (lit "name"))))%nat ->
  EMAIL_RE_match (lower (strip (get_or_empty r (lit "email")))) = false ->
  check_row r = Rejected MSG_EMAIL.
Proof.
  intros Hn He. unfold check_row.
  rewrite bool_decide_eq_false_2 by lia. by rewrite He.
Qed.


(** What an accepted row went through. *)
Lemma check_row_accepted r name email age :
  check_row r = Accepted name email age ->
  name = strip (get_or_empty r (lit "name")) ∧
  email = lower (strip (get_or_empty r (lit "email"))) ∧
  (2 <= length name)%nat ∧ EMAIL_RE_match email = true ∧
  int (strip (get_or_empty r (lit "age"))) = Some age ∧ 1 <= age <= 120.
Proof.
  unfold check_row. case_bool_decide as Hn; [done|].
  destruct (EMAIL_RE_match _) eqn:He; [|done]. simpl.
  destruct (int _) as [a|] eqn:Ha; [|done].
  case_bool_decide as Hr; [done|].
  intros [= <- <- <-]. repeat split; try done; lia.
Qed.

(** A row rejected for its age has a name and an email that passed. *)
Lemma check_row_rejected_age r :
  check_row r = Rejected MSG_AGE ->
  (2 <= length (strip (get_or_empty r (lit "name"))))%nat ∧
  EMAIL_RE_match (lower (strip (get_or_empty r (lit "email")))) = true.
Proof.
  pose proof messages_distinct as (_ & Hna & _ & Hea & _).
  unfold check_row. case_bool_decide as Hn; [by intros [= E]|].
  destruct (EMAIL_RE_match _) eqn:He; simpl; [|by intros [= E]].
  intros _. split; [lia|done].
Qed.

Lemma loop_body_rejected i r ok errors con m :
  check_row r = Rejected m ->
  loop_body i r (ok, errors, con) =
    inr (ok, errors ++ [{| row := i; msg := m |}], con).
Proof. intros Hc. unfold loop_body. by rewrite Hc. Qed.

(** C1. The checks run in the order name, email, age and the first one
    that fails gives the message of the row: a row whose trimmed name has
    fewer than 2 characters gets the name message whatever its email and
    age are; a row with a good name whose trimmed, lower-cased email does
    not match [EMAIL_RE] gets the email message whatever its age is; the
    age message is given only to rows whose name and email passed. *)
Theorem validation_order i r ok errors con :
  let name := strip (get_or_empty r (lit "name")) in
  let email := lower (strip (get_or_empty r (lit "email"))) in
  ((length name < 2)%nat ->
     loop_body i r (ok, errors, con) =
       inr (ok, errors ++ [{| row := i; msg := MSG_NAME |}], con)) ∧
  ((2 <= length name)%nat -> EMAIL_RE_match email = false ->
     loop_body i r (ok, errors, con) =
       inr (ok, errors ++ [{| row := i; msg := MSG_EMAIL |}], con)) ∧
  (check_row r = Rejected MSG_AGE ->
     (2 <= length name)%nat ∧ EMAIL_RE_match email = true).
Proof.
  intros name email. split; [|split].
  - intros Hn. by apply loop_body_rejected, check_row_name.
  - intros Hn He. by apply loop_body_rejected, check_row_email.
  - apply check_row_rejected_age.
Qed.

(** What [int] takes for an integer: a sign, zeros in front and single
    underscores between digits pass; a decimal point, a doubled, leading
    or trailing underscore, a space after the sign and the empty string
    do not. *)
Lemma int_examples :
  int (lit "+7") = Some 7 ∧ int (lit "-7") = Some (-7) ∧
  int (lit "007") = Some 7 ∧ int (lit "1_0") = Some 10 ∧
  int (lit "30.0") = None ∧ int (lit "1__0") = None ∧
  int (lit "_1") = None ∧ int (lit "1_") = None ∧
  int (lit "+ 1") = None ∧ int (lit "") = None.
Proof. by repeat split. Qed.


(** *** The header test *)

Lemma header_ok_iff (fieldnames : list str) :
  header_ok fieldnames = true <->
  ∀ k, k ∈ [lit "name"; lit "email"; lit "age"] ->
       ∃ c, c ∈ fieldnames ∧ lower (strip c) = k.
Proof.
  unfold header_ok, required. rewrite bool_decide_eq_true, elem_of_subseteq.
  setoid_rewrite elem_of_list_to_set. setoid_rewrite list_elem_of_fmap.
  split; intros Hsub k Hk.
  - destruct (Hsub k) as (c & -> & Hc); [|by eauto].
    rewrite !elem_of_union, !elem_of_singleton.
    rewrite !elem_of_cons, elem_of_nil in Hk. tauto.
  - destruct (Hsub k) as (c & Hc & <-); [|by eauto].
    rewrite !elem_of_union, !elem_of_singleton in Hk.
    rewrite !elem_of_cons, elem_of_nil. tauto.
Qed.

(** *** The loop *)

(** The only exception that leaves the loop is the one of the database. *)
Lemma loop_body_raises i r st x : loop_body i r st = inl x -> x = sqlite3_Error.
Proof.
  destruct st as [[ok errors] con]. unfold loop_body.
  destruct (check_row r); [done|].
  destruct (Sqlite.insert_customer _ _ _ _ _ _); naive_solver.
Qed.

Lemma loop_raises rows : ∀ i st x, loop rows i st = inl x -> x = sqlite3_Error.
Proof.
  induction rows as [|r rows IH]; intros i st x; simpl; [done|].
  destruct (loop_body i r st) eqn:Hb; [|by apply IH].
  intros [= <-]. by eapply loop_body_raises.
Qed.

Lemma loop_app rows1 : ∀ rows2 i st,
  loop (rows1 ++ rows2) i st =
    match loop rows1 i st with
    | inl x => inl x
    | inr st' => loop rows2 (i + Z.of_nat (length rows1)) st'
    end.
Proof.
  induction rows1 as [|r rows1 IH]; intros rows2 i st; simpl.
  - f_equal. lia.
  - destruct (loop_body i r st); [done|]. rewrite IH.
    destruct (loop rows1 _ _); [done|]. f_equal. lia.
Qed.

(** *** The [INSERT] of an accepted row *)

Lemma insert_conflict con name email age created_at :
  email ∈ Sqlite.email <$> Sqlite.customers con ->
  Sqlite.insert_customer false con name email age created_at =
    Sqlite.IntegrityError.
Proof. intros Hin. unfold Sqlite.insert_customer. by rewrite bool_decide_eq_true_2. Qed.

Lemma insert_fresh con name email age created_at :
  email ∉ Sqlite.email <$> Sqlite.customers con ->
  Sqlite.insert_customer false con name email age created_at =
    Sqlite.Done
      {| Sqlite.customers := Sqlite.customers con ++
           [{| Sqlite.id := Sqlite.next_id con; Sqlite.name := name;
               Sqlite.email := email; Sqlite.age := age;
               Sqlite.created_at := created_at |}];
         Sqlite.sqlite_sequence := Sqlite.next_id con |}.
Proof. intros Hin. unfold Sqlite.insert_customer. by rewrite bool_decide_eq_false_2. Qed.

Lemma loop_body_duplicate i r name email age ok errors con :
  check_row r = Accepted name email age -> store_fault i = false ->
  email ∈ Sqlite.email <$> Sqlite.customers con ->
  loop_body i r (ok, errors, con) =
    inr (ok, errors ++ [{| row := i; msg := MSG_DUPLICATE |}], con).
Proof.
  intros Hc Hf Hin. unfold loop_body. rewrite Hc, Hf.
  by rewrite insert_conflict.
Qed.

Lemma loop_body_inserted i r name email age ok errors con :
  check_row r = Accepted name email age -> store_fault i = false ->
  email ∉ Sqlite.email <$> Sqlite.customers con ->
  loop_body i r (ok, errors, con) =
    inr (ok + 1, errors,
         {| Sqlite.customers := Sqlite.customers con ++
              [{| Sqlite.id := Sqlite.next_id con; Sqlite.name := name;
                  Sqlite.email := email; Sqlite.age := age;
                  Sqlite.created_at :=
                    isoformat_seconds (utcnow i) ++ lit "Z" |}];
            Sqlite.sqlite_sequence := Sqlite.next_id con |}).
Proof.
  intros Hc Hf Hin. unfold loop_body. rewrite Hc, Hf.
  by rewrite insert_fresh.
Qed.

Lemma loop_body_fault i r name email age st :
  check_row r = Accepted name email age -> store_fault i = true ->
  loop_body i r st = inl sqlite3_Error.
Proof.
  intros Hc Hf. destruct st as [[ok errors] con].
  unfold loop_body. by rewrite Hc, Hf.
Qed.

(** C2. For a row that passed the checks: when the email is already in the
    table (from an earlier import or from an earlier row of the file) the
    [INSERT] raises IntegrityError, the duplicate message is recorded for
    the row and the loop goes on; the same accepted row twice in a file,
    with an email that is new, is inserted the first time and reported as
    a duplicate the second time; when the [INSERT] fails in another way
    the import raises that error and the database is left as it was. *)
Theorem duplicate_email_and_store_fault i r name email age ok errors con :
  check_row r = Accepted name email age ->
  (store_fault i = false ->
   email ∈ Sqlite.email <$> Sqlite.customers con -> ∀ rows,
     loop (r :: rows) i (ok, errors, con) =
       loop rows (i + 1)
         (ok, errors ++ [{| row := i; msg := MSG_DUPLICATE |}], con)) ∧
  (store_fault i = false -> store_fault (i + 1) = false ->
   email ∉ Sqlite.email <$> Sqlite.customers con -> ∀ rows,
     loop (r :: r :: rows) i (ok, errors, con) =
       loop rows (i + 1 + 1)
         (ok + 1, errors ++ [{| row := i + 1; msg := MSG_DUPLICATE |}],
          {| Sqlite.customers := Sqlite.customers con ++
               [{| Sqlite.id := Sqlite.next_id con; Sqlite.name := name;
                   Sqlite.email := email; Sqlite.age := age;
                   Sqlite.created_at :=
                     isoformat_seconds (utcnow i) ++ lit "Z" |}];
             Sqlite.sqlite_sequence := Sqlite.next_id con |})) ∧
  (store_fault i = true ->
   ∀ text_stream db fieldnames recs e before after st,
     Csv.reader text_stream = (fieldnames :: recs, e) ->
     header_ok fieldnames = true ->
     Csv.dict_rows fieldnames recs = before ++ r :: after ->
     i = 2 + Z.of_nat (length before) ->
     loop before 2 (0, [], db) = inr st ->
     import_csv_stream text_stream db = (inl sqlite3_Error, db)).
Proof.
  intros Hc. split; [|split].
  - intros Hf Hin rows. cbn [loop]. by erewrite loop_body_duplicate.
  - intros Hf Hf' Hin rows. cbn [loop].
    erewrite loop_body_inserted by done.
    erewrite loop_body_duplicate; [done..|].
    simpl. rewrite fmap_app. set_solver.
  - intros Hf text_stream db fieldnames recs e before after st Hr Hh Hd -> Hl.
    unfold import_csv_stream. rewrite Hr. simpl. rewrite Hh. simpl.
    rewrite Hd, loop_app, Hl. cbn [loop].
    by erewrite loop_body_fault.
Qed.

(** C3. The import raises the header error exactly when reading the
    header raised nothing and one of name, email, age is not among the
    trimmed, lower-cased field names of the header (none is when there is
    no header; other columns do not matter); then nothing was inserted:
    the database is the one before the call and no count or list of
    errors is returned. *)
Theorem header_error_iff text_stream db :
  ((import_csv_stream text_stream db).1 = inl ValueError_header <->
   ∃ recs e, Csv.reader text_stream = (recs, e) ∧ (recs = [] -> e = None) ∧
     ¬ ∀ k, k ∈ [lit "name"; lit "email"; lit "age"] ->
            ∃ c, c ∈ default [] (head recs) ∧ lower (strip c) = k) ∧
  ((import_csv_stream text_stream db).1 = inl ValueError_header ->
   (import_csv_stream text_stream db).2 = db).
Proof.
  unfold import_csv_stream.
  destruct (Csv.reader text_stream) as [recs e] eqn:Hr.
  assert (header_ok (default [] (head recs)) = false <->
    ¬ ∀ k, k ∈ [lit "name"; lit "email"; lit "age"] ->
           ∃ c, c ∈ default [] (head recs) ∧ lower (strip c) = k) as Hh.
  { rewrite <- header_ok_iff. by destruct (header_ok _). }
  assert ((∃ recs0 e0, (recs, e) = (recs0, e0) ∧ (recs0 = [] -> e0 = None) ∧
     ¬ ∀ k, k ∈ [lit "name"; lit "email"; lit "age"] ->
            ∃ c, c ∈ default [] (head recs0) ∧ lower (strip c) = k) <->
     (recs = [] -> e = None) ∧ header_ok (default [] (head recs)) = false) as ->.
  { rewrite Hh. split.
    - by intros (? & ? & [= <- <-] & ? & ?).
    - intros [? ?]. by exists recs, e. }
  clear Hh.
  assert (∀ res : (exception + Z * list error) * Sqlite.Connection,
    (res.1 = inl ValueError_header <-> False) ->
    (res.1 = inl ValueError_header <->
       (recs = [] -> e = None) ∧ true = false) ∧
    (res.1 = inl ValueError_header -> res.2 = db)) as Hpass.
  { intros res Hres. split; [|by intros ?%Hres].
    rewrite Hres. split; [done|]. by intros [_ ?]. }
  destruct recs as [|fieldnames recs]; [destruct e as [e|]|].
  - split; [|done]. split; [done|]. by intros [He _]; specialize (He eq_refl).
  - destruct (header_ok (default [] (head []))); cbn [negb]; [|done].
    apply Hpass.
    destruct (loop _ _ _) as [x|[[ok errors] con]] eqn:Hl; [|done].
    by apply loop_raises in Hl as ->.
  - destruct (header_ok (default [] (head (fieldnames :: recs)))); cbn [negb];
      [|done].
    apply Hpass.
    destruct (loop _ _ _) as [x|[[ok errors] con]] eqn:Hl.
    + by apply loop_raises in Hl as ->.
    + by destruct e.
Qed.

End Checks.

(** ** The shape of [created_at] *)

Lemma digit_char (n : N) : is_digit (48 + n mod 10) = true.
Proof.
  pose proof (N.mod_lt n 10 ltac:(done)) as Hlt.
  unfold is_digit. revert Hlt. generalize (n mod 10)%N. intros m Hlt.
  apply andb_true_iff. split; apply N.leb_le; lia.
Qed.

Lemma format_d_2 (n : N) :
  (n < 100)%N -> format_d 2 n = [48 + n / 10 mod 10; 48 + n mod 10]%N.
Proof.
  intros Hn. unfold format_d. change (10 ^ N.of_nat 2)%N with 100%N.
  by rewrite (proj2 (N.ltb_lt _ _) Hn).
Qed.

Lemma format_d_4 (n : N) :
  (n < 10000)%N ->
  format_d 4 n = [48 + n / 10 / 10 / 10 mod 10; 48 + n / 10 / 10 mod 10;
                  48 + n / 10 mod 10; 48 + n mod 10]%N.
Proof.
  intros Hn. unfold format_d. change (10 ^ N.of_nat 4)%N with 10000%N.
  by rewrite (proj2 (N.ltb_lt _ _) Hn).
Qed.

(** The time stamp of an inserted record has the ISO 8601 shape. *)
Lemma isoformat_shape (d : datetime) :
  datetime_ok d -> iso_utc_seconds (isoformat_seconds d ++ lit "Z") = true.
Proof.
  intros (Hy & Hm & Hd & Hh & Hmi & Hs & _). unfold isoformat_seconds.
  rewrite format_d_4, !format_d_2 by lia.
  change (lit "-") with [45%N]. change (lit "T") with [84%N].
  change (lit ":") with [58%N]. change (lit "Z") with [90%N].
  cbn [app]. cbv beta iota delta [iso_utc_seconds].
  by rewrite !digit_char.
Qed.

(** ** Runs of the loop *)

Section Runs.
Context {rt : Runtime} {env : Env}.

Lemma loop_body_cases i r ok errs con ok' errs' con' :
  loop_body i r (ok, errs, con) = inr (ok', errs', con') ->
  (∃ m, check_row r = Rejected m ∧
        ok' = ok ∧ errs' = errs ++ [{| row := i; msg := m |}] ∧ con' = con) ∨
  (∃ name email age, check_row r = Accepted name email age ∧ email ∈ emails con ∧
        ok' = ok ∧ errs' = errs ++ [{| row := i; msg := MSG_DUPLICATE |}] ∧
        con' = con) ∨
  (∃ name email age, check_row r = Accepted name email age ∧ (email ∉ emails con) ∧
        ok' = ok + 1 ∧ errs' = errs ∧
        con' = with_customer con (new_customer con i name email age)).
Proof.
  unfold loop_body. destruct (check_row r) as [m|name email age] eqn:Hc.
  { intros [= <- <- <-]. left. by exists m. }
  unfold Sqlite.insert_customer. destruct (store_fault i); [done|].
  case_bool_decide as Hin.
  - intros [= <- <- <-]. right; left. by exists name, email, age.
  - intros [= <- <- <-]. right; right. by exists name, email, age.
Qed.

(** A loop that ends without an exception is a run. *)
Lemma loop_run rows : ∀ i ok errs con ok' errs' con',
  loop rows i (ok, errs, con) = inr (ok', errs', con') ->
  ∃ new added, run i rows con new added con' ∧
    errs' = errs ++ new ∧ ok' = ok + Z.of_nat (length added).
Proof.
  induction rows as [|r rows IH]; intros i ok errs con ok' errs' con'.
  - intros [= <- <- <-]. exists [], []. split; [constructor|].
    split; [by rewrite app_nil_r|simpl; lia].
  - cbn [loop]. destruct (loop_body i r (ok, errs, con)) as [|[[ok1 errs1] con1]] eqn:Hb;
      [done|].
    intros Hl. apply IH in Hl as (new & added & Hrun & -> & ->).
    apply loop_body_cases in Hb
      as [(m & Hc & -> & -> & ->)
         |[(name & email & age & Hc & Hin & -> & -> & ->)
          |(name & email & age & Hc & Hin & -> & -> & ->)]].
    + exists ({| row := i; msg := m |} :: new), added.
      split; [by eapply run_rejected|]. by rewrite <- (assoc_L (++)).
    + exists ({| row := i; msg := MSG_DUPLICATE |} :: new), added.
      split; [by eapply run_duplicate|]. by rewrite <- (assoc_L (++)).
    + exists new, (new_customer con i name email age :: added).
      split; [by eapply run_inserted|]. split; [done|]. simpl length. lia.
Qed.


(** *** What a run leaves behind *)

Lemma run_counts i rows con errs added con' :
  run i rows con errs added con' ->
  (length errs + length added = length rows)%nat.
Proof. induction 1; simpl; lia. Qed.

Lemma run_customers i rows con errs added con' :
  run i rows con errs added con' ->
  Sqlite.customers con' = Sqlite.customers con ++ added.
Proof.
  induction 1 as [| | |i r rows con name email age errs added con' Hc Hin Hrun IH];
    [by rewrite app_nil_r|done..|].
  rewrite IH. simpl. by rewrite <- (assoc_L (++)).
Qed.

(** The rows of the errors are numbers of rows of the run, in increasing
    order. *)
Lemma run_error_rows i rows con errs added con' :
  run i rows con errs added con' ->
  Forall (fun e => i <= row e < i + Z.of_nat (length rows)) errs ∧
  StronglySorted (fun e1 e2 => row e1 < row e2) errs.
Proof.
  induction 1 as [|i r rows con m errs added con' Hc Hrun [IH1 IH2]
                  |i r rows con name email age errs added con' Hc Hin Hrun [IH1 IH2]
                  |i r rows con name email age errs added con' Hc Hin Hrun [IH1 IH2]].
  - split; constructor.
  - split.
    + constructor; [simpl; lia|].
      eapply Forall_impl; [exact IH1|]. intros e He. simpl in *. lia.
    + constructor; [done|].
      eapply Forall_impl; [exact IH1|]. intros e He. simpl in *. lia.
  - split.
    + constructor; [simpl; lia|].
      eapply Forall_impl; [exact IH1|]. intros e He. simpl in *. lia.
    + constructor; [done|].
      eapply Forall_impl; [exact IH1|]. intros e He. simpl in *. lia.
  - split; [|done].
    eapply Forall_impl; [exact IH1|]. intros e He. simpl in *. lia.
Qed.




(** *** The ids of the inserted records *)

Lemma foldr_max_ge (l : list Z) (a : Z) :
  a <= foldr Z.max a l ∧ ∀ x, x ∈ l -> x <= foldr Z.max a l.
Proof.
  induction l as [|y l [IH1 IH2]]; simpl.
  - split; [lia|]. intros x Hx. by apply elem_of_nil in Hx.
  - split; [lia|]. intros x [->|Hx]%elem_of_cons; [lia|].
    specialize (IH2 x Hx). lia.
Qed.

Lemma next_id_above con :
  Sqlite.sqlite_sequence con < Sqlite.next_id con ∧
  ∀ d, d ∈ Sqlite.customers con -> Sqlite.id d < Sqlite.next_id con.
Proof.
  unfold Sqlite.next_id.
  destruct (foldr_max_ge (Sqlite.id <$> Sqlite.customers con)
              (Sqlite.sqlite_sequence con)) as [H1 H2].
  split; [lia|]. intros d Hd.
  assert (Sqlite.id d ∈ Sqlite.id <$> Sqlite.customers con) as Hin
    by (apply list_elem_of_fmap; eauto).
  specialize (H2 _ Hin). lia.
Qed.

(** The inserted records get ids above those of the table, in increasing
    order. *)
Lemma run_ids i rows con errs added con' :
  run i rows con errs added con' ->
  Forall (fun c => ∀ d, d ∈ Sqlite.customers con -> Sqlite.id d < Sqlite.id c) added ∧
  StronglySorted (fun c1 c2 => Sqlite.id c1 < Sqlite.id c2) added.
Proof.
  induction 1 as [| | |i r rows con name email age errs added con' Hc Hin Hrun [IH1 IH2]];
    [split; constructor|done..|].
  rewrite Forall_forall in IH1. split.
  - constructor.
    + intros d Hd. by apply next_id_above.
    + apply Forall_forall. intros c Hc' d Hd. apply (IH1 c Hc').
      simpl. apply elem_of_app. by left.
  - constructor; [done|]. apply Forall_forall. intros c Hc'.
    apply (IH1 c Hc'). simpl. apply elem_of_app. right. by apply list_elem_of_singleton.
Qed.

(** *** [ORDER BY id] *)

Lemma insert_by_id_last c l :
  Forall (fun d => Sqlite.id d <= Sqlite.id c) l ->
  Sqlite.insert_by_id c l = l ++ [c].
Proof.
  induction 1 as [|d l Hd Hl IH]; [done|]. simpl.
  rewrite (proj2 (Z.ltb_ge _ _)) by lia. by rewrite IH.
Qed.

Lemma foldl_insert_by_id added : ∀ acc,
  Forall (fun c => ∀ d, d ∈ acc -> Sqlite.id d < Sqlite.id c) added ->
  StronglySorted (fun c1 c2 => Sqlite.id c1 < Sqlite.id c2) added ->
  foldl (fun acc c => Sqlite.insert_by_id c acc) acc added = acc ++ added.
Proof.
  induction added as [|c added IH]; intros acc Hacc Hs; simpl.
  - by rewrite app_nil_r.
  - apply Forall_cons in Hacc as [Hc Hacc].
    apply StronglySorted_inv in Hs as [Hs Hlt].
    rewrite insert_by_id_last.
    2:{ apply Forall_forall. intros d Hd. specialize (Hc d Hd). lia. }
    rewrite IH; [by rewrite <- (assoc_L (++))| |done].
    rewrite Forall_forall in Hacc, Hlt. apply Forall_forall.
    intros c' Hc' d [Hd|Hd%list_elem_of_singleton]%elem_of_app.
    + by apply Hacc.
    + subst d. by apply Hlt.
Qed.

Lemma elem_of_insert_by_id c d l :
  d ∈ Sqlite.insert_by_id c l <-> d = c ∨ d ∈ l.
Proof.
  induction l as [|x l IH]; simpl.
  - rewrite list_elem_of_singleton, elem_of_nil. tauto.
  - destruct (Sqlite.id c <? Sqlite.id x).
    + by rewrite elem_of_cons.
    + rewrite !elem_of_cons, IH. tauto.
Qed.

Lemma elem_of_order_by_id d l : d ∈ Sqlite.order_by_id l -> d ∈ l.
Proof.
  unfold Sqlite.order_by_id.
  assert (∀ acc, d ∈ foldl (fun acc c => Sqlite.insert_by_id c acc) acc l ->
                 d ∈ acc ∨ d ∈ l) as Hg.
  { induction l as [|x l IH]; intros acc; simpl; [tauto|].
    intros [[->|?]%elem_of_insert_by_id|?]%IH; rewrite elem_of_cons; tauto. }
  intros [[]%elem_of_nil|?]%Hg. done.
Qed.

(** Records with larger ids, in increasing order, come last in the
    listing, in their order. *)
Lemma order_by_id_app l added :
  Forall (fun c => ∀ d, d ∈ l -> Sqlite.id d < Sqlite.id c) added ->
  StronglySorted (fun c1 c2 => Sqlite.id c1 < Sqlite.id c2) added ->
  Sqlite.order_by_id (l ++ added) = Sqlite.order_by_id l ++ added.
Proof.
  intros Ha Hs. unfold Sqlite.order_by_id. rewrite foldl_app.
  apply foldl_insert_by_id; [|done].
  eapply Forall_impl; [exact Ha|]. intros c Hc d Hd.
  by apply Hc, elem_of_order_by_id.
Qed.

(** *** The records of the rows that were inserted *)

Lemma enumerate_ge {A} (l : list A) : ∀ start j x,
  (j, x) ∈ enumerate start l -> start <= j.
Proof.
  induction l as [|y l IH]; intros start j x; simpl.
  - by intros ?%elem_of_nil.
  - intros [[= -> ->]|Hin]%elem_of_cons; [lia|]. apply IH in Hin. lia.
Qed.

Lemma omap_ext_in {A B} (f g : A -> option B) (l : list A) :
  (∀ x, x ∈ l -> f x = g x) -> omap f l = omap g l.
Proof.
  induction l as [|x l IH]; intros Hfg; [done|]. csimpl.
  rewrite (Hfg x) by apply list_elem_of_here.
  rewrite IH; [done|]. intros y Hy. apply Hfg. by apply list_elem_of_further.
Qed.

(** An error of the row [i] does not change what the later rows added. *)
Lemma inserted_record_later (e : error) (errs : list error) (i : Z)
    (l : list (gmap str (option str))) :
  row e = i ->
  omap (inserted_record (e :: errs)) (enumerate (i + 1) l) =
  omap (inserted_record errs) (enumerate (i + 1) l).
Proof.
  intros He. apply omap_ext_in. intros [j r] Hin%enumerate_ge.
  unfold inserted_record. cbn [fst snd]. rewrite fmap_cons.
  destruct (decide (j ∈ row <$> errs)) as [Hj|Hj].
  - rewrite !bool_decide_eq_true_2; [done..|]. by apply list_elem_of_further.
  - rewrite !bool_decide_eq_false_2; [done..|].
    intros [?|?]%elem_of_cons; [lia|done].
Qed.

Lemma run_added i rows con errs added con' :
  run i rows con errs added con' ->
  columns <$> added = omap (inserted_record errs) (enumerate i rows).
Proof.
  induction 1 as [|i r rows con m errs added con' Hc Hrun IH
                  |i r rows con name email age errs added con' Hc Hin Hrun IH
                  |i r rows con name email age errs added con' Hc Hin Hrun IH].
  - done.
  - cbn [enumerate]. csimpl. rewrite inserted_record_later by done.
    unfold inserted_record at 1. cbn [fst snd]. rewrite bool_decide_eq_true_2; [done|].
    rewrite fmap_cons. apply list_elem_of_here.
  - cbn [enumerate]. csimpl. rewrite inserted_record_later by done.
    unfold inserted_record at 1. cbn [fst snd]. rewrite bool_decide_eq_true_2; [done|].
    rewrite fmap_cons. apply list_elem_of_here.
  - cbn [enumerate]. csimpl.
    unfold inserted_record at 1. cbn [fst snd].
    rewrite bool_decide_eq_false_2.
    + rewrite Hc. by rewrite <- IH.
    + intros (e & He & Hin')%list_elem_of_fmap.
      apply run_error_rows in Hrun as [Hrows _].
      rewrite Forall_forall in Hrows. specialize (Hrows e Hin'). lia.
Qed.

(** C8. After an import that returned [(ok, errors)], the listing of
    [export] is the listing before the import followed by the records of
    the rows that are not among the errors, in the order of the rows:
    older records first. There are [ok] of them. Each has the name, email
    and age that the checks of its row produced (the trimmed name, the
    trimmed and lower-cased email, the integer of the trimmed age) and a
    [created_at] that is the reading of the clock at its row, to the
    second, in the shape YYYY-MM-DDTHH:MM:SSZ. *)
Theorem inserted_records_listed text_stream db ok errors db' :
  (∀ i, datetime_ok (utcnow i)) ->
  import_csv_stream text_stream db = (inr (ok, errors), db') ->
  let recs := (Csv.reader text_stream).1 in
  let rows := Csv.dict_rows (default [] (head recs)) (tail recs) in
  let inserted := omap (inserted_record errors) (enumerate 2 rows) in
  Sqlite.select_all db' = Sqlite.select_all db ++ inserted ∧
  Z.of_nat (length inserted) = ok ∧
  (∀ name email age created_at,
     (name, email, age, created_at) ∈ inserted ->
     ∃ i r, (i, r) ∈ enumerate 2 rows ∧ (i ∉ row <$> errors) ∧
       name = strip (get_or_empty r (lit "name")) ∧
       email = lower (strip (get_or_empty r (lit "email"))) ∧
       int (strip (get_or_empty r (lit "age"))) = Some age ∧
       created_at = isoformat_seconds (utcnow i) ++ lit "Z" ∧
       iso_utc_seconds created_at = true).
Proof.
  intros Hclock Hi recs rows inserted.
  assert (loop rows 2 (0, [], db) = inr (ok, errors, db')) as Hl.
  { unfold import_csv_stream in Hi. subst rows recs.
    destruct (Csv.reader text_stream) as [recs e]. cbn [fst].
    assert ((if negb (header_ok (default [] (head recs)))
             then (inl ValueError_header, db)
             else match loop (Csv.dict_rows (default [] (head recs)) (tail recs))
                          2 (0, [], db) with
                  | inl x => (inl x, db)
                  | inr (ok, errors, con) =>
                      match e with
                      | Some e => (inl (csv_Error e), db)
                      | None => (inr (ok, errors), con)
                      end
                  end) = (inr (ok, errors), db')) as Hi'.
    { destruct recs; [destruct e|]; done. }
    clear Hi. destruct (negb _); [done|].
    destruct (loop _ _ _) as [|[[ok1 errors1] con1]]; [done|].
    destruct e; [done|]. by injection Hi' as -> -> ->. }
  apply loop_run in Hl as (new & added & Hrun & Hnew & Hok).
  cbn [app] in Hnew. subst new.
  pose proof (run_added _ _ _ _ _ _ Hrun) as Hadd. fold inserted in Hadd.
  pose proof (run_customers _ _ _ _ _ _ Hrun) as Hcu.
  pose proof (run_ids _ _ _ _ _ _ Hrun) as [Hids Hsorted].
  split; [|split].
  - unfold Sqlite.select_all. rewrite Hcu, order_by_id_app by done.
    by rewrite fmap_app, <- Hadd.
  - rewrite <- Hadd, length_fmap. lia.
  - intros name email age created_at Hin.
    apply list_elem_of_omap in Hin as ([i r] & Hin & Hrec).
    unfold inserted_record in Hrec. cbn [fst snd] in Hrec.
    case_bool_decide as Hrow; [done|].
    destruct (check_row r) as [|name' email' age'] eqn:Hc; [done|].
    injection Hrec as -> -> -> <-.
    apply check_row_accepted in Hc as (-> & -> & _ & _ & Hage & _).
    exists i, r. repeat split; try done. by apply isoformat_shape.
Qed.

(** *** Emails in the table during a run *)

Lemma emails_with_customer con c e :
  e ∈ emails (with_customer con c) <-> e ∈ emails con ∨ e = Sqlite.email c.
Proof.
  unfold emails, with_customer. cbn [Sqlite.customers].
  rewrite fmap_app, elem_of_app. cbn. by rewrite list_elem_of_singleton.
Qed.

Lemma run_emails_mono i rows con errs added con' e :
  run i rows con errs added con' -> e ∈ emails con -> e ∈ emails con'.
Proof.
  intros Hrun%run_customers He. unfold emails. rewrite Hrun, fmap_app.
  apply elem_of_app. by left.
Qed.

(** After a run the email of every row that passed the checks is in the
    table. *)
Lemma run_email_present i rows con errs added con' :
  run i rows con errs added con' ->
  ∀ k r name email age,
    rows !! k = Some r -> check_row r = Accepted name email age ->
    email ∈ emails con'.
Proof.
  induction 1 as [|i r rows con m errs added con' Hc Hrun IH
                  |i r rows con name email age errs added con' Hc Hin Hrun IH
                  |i r rows con name email age errs added con' Hc Hin Hrun IH];
    intros k r0 name0 email0 age0 Hk Hc0.
  - done.
  - destruct k as [|k]; [|by eapply IH]. injection Hk as <-. congruence.
  - destruct k as [|k]; [|by eapply IH]. injection Hk as <-.
    rewrite Hc in Hc0. injection Hc0 as <- <- <-. by eapply run_emails_mono.
  - destruct k as [|k]; [|by eapply IH]. injection Hk as <-.
    rewrite Hc in Hc0. injection Hc0 as <- <- <-.
    eapply run_emails_mono; [done|]. apply emails_with_customer. by right.
Qed.



(** The inserted records have emails that were not in the table, each a
    different one. *)
Lemma run_added_emails i rows con errs added con' :
  run i rows con errs added con' ->
  NoDup (Sqlite.email <$> added) ∧
  ∀ c, c ∈ added -> Sqlite.email c ∉ emails con.
Proof.
  induction 1 as [| | |i r rows con name email age errs added con' Hc Hin Hrun [IH1 IH2]].
  - split; [constructor|]. by intros c ?%elem_of_nil.
  - done.
  - done.
  - split.
    + rewrite fmap_cons. constructor; [|done].
      intros (c & Hce & Hc')%list_elem_of_fmap.
      apply (IH2 c Hc'), emails_with_customer. by right.
    + intros c [->|Hc']%elem_of_cons; [done|].
      intros He. apply (IH2 c Hc'), emails_with_customer. by left.
Qed.


End Runs.

(** ** Blank lines *)

Section BlankLines.
Context {rt : Runtime} {env : Env}.

(** The records of lines that end between two records, followed by more
    lines. *)
Lemma records_from_app pre : ∀ r post,
  Csv.parser_after r pre = inr Csv.parse_reset ->
  Csv.records_from r (pre ++ post) =
    ((Csv.records_from r pre).1 ++ (Csv.records_from Csv.parse_reset post).1,
     (Csv.records_from Csv.parse_reset post).2).
Proof.
  induction pre as [|line pre IH]; intros r post; cbn [Csv.parser_after].
  - intros [= ->]. cbn. by destruct (Csv.records_from _ _).
  - cbn [app Csv.records_from].
    destruct (Csv.parse_chars r line) as [|r'] eqn:Hp; [done|].
    case_bool_decide as Hs; intros Ha.
    + rewrite (IH _ post Ha).
      by destruct (Csv.records_from Csv.parse_reset pre).
    + by apply IH.
Qed.

(** Lines that end between two records hold a record unless there is no
    line. *)
Lemma records_from_nonempty pre : ∀ r,
  pre ≠ [] ->
  Csv.parser_after r pre = inr Csv.parse_reset ->
  (Csv.records_from r pre).1 ≠ [].
Proof.
  induction pre as [|line pre IH]; intros r Hne; [done|].
  cbn [Csv.parser_after Csv.records_from].
  destruct (Csv.parse_chars r line) as [|r'] eqn:Hp; [done|].
  case_bool_decide as Hs; intros Ha.
  - by destruct (Csv.records_from Csv.parse_reset pre).
  - destruct pre as [|line' pre]; [|by apply IH].
    cbn in Ha. injection Ha as ->. done.
Qed.

(** A line of nothing but line feeds and carriage returns is the record
    [[]]. *)
Lemma parse_chars_eat_crnl blank : ∀ fields,
  forallb Csv.is_newline blank = true ->
  Csv.parse_chars
    {| Csv.state := Csv.EAT_CRNL; Csv.fields := fields; Csv.field := [] |} blank =
  inr {| Csv.state := Csv.START_RECORD; Csv.fields := fields; Csv.field := [] |}.
Proof.
  induction blank as [|c blank IH]; intros fields Hb; [done|].
  cbn in Hb. apply andb_true_iff in Hb as [Hc Hb].
  cbn [Csv.parse_chars]. unfold Csv.parse_process_char at 1. cbn [Csv.state].
  rewrite Hc. by apply IH.
Qed.

Lemma parse_chars_blank blank :
  forallb Csv.is_newline blank = true ->
  Csv.parse_chars Csv.parse_reset blank = inr Csv.parse_reset.
Proof.
  destruct blank as [|c blank]; [done|]. intros Hb.
  cbn in Hb. apply andb_true_iff in Hb as [Hc Hb].
  cbn [Csv.parse_chars]. unfold Csv.parse_process_char at 1.
  cbn [Csv.state Csv.parse_reset]. rewrite Hc.
  by apply (parse_chars_eat_crnl blank []).
Qed.

Lemma reader_blank_line pre blank post :
  Csv.parser_after Csv.parse_reset pre = inr Csv.parse_reset ->
  forallb Csv.is_newline blank = true ->
  Csv.reader (pre ++ blank :: post) =
    ((Csv.reader pre).1 ++ [] :: (Csv.reader post).1, (Csv.reader post).2) ∧
  Csv.reader (pre ++ post) =
    ((Csv.reader pre).1 ++ (Csv.reader post).1, (Csv.reader post).2).
Proof.
  intros Ha Hb. unfold Csv.reader. rewrite !records_from_app by done.
  split; [|done]. cbn [Csv.records_from].
  rewrite (parse_chars_blank blank Hb). cbn.
  by destruct (Csv.records_from Csv.parse_reset post).
Qed.

(** C10. A blank line between two records, after the header, changes
    nothing in what the import does: the reader gives the empty record for
    it, [DictReader] does not pass it on, and the rows after it are
    numbered as if the line were not there. So the row of an error after a
    blank line is one less than the number of its line in the file: with a
    blank second line, the error of the third line is reported at row 2. *)
Theorem blank_line_skipped pre blank post db :
  pre ≠ [] ->
  Csv.parser_after Csv.parse_reset pre = inr Csv.parse_reset ->
  forallb Csv.is_newline blank = true ->
  import_csv_stream (pre ++ blank :: post) db = import_csv_stream (pre ++ post) db ∧
  (import_csv_stream (rt := plain) (env := steady)
     [lit "name,email,age" ++ [10%N]; [10%N]; lit "x,nobody,1" ++ [10%N]]
     empty_db).1 = inr (0, [{| row := 2; msg := MSG_NAME |}]).
Proof.
  intros Hne Ha Hb. split; [|by vm_compute].
  destruct (reader_blank_line pre blank post Ha Hb) as [H1 H2].
  pose proof (records_from_nonempty pre _ Hne Ha) as Hrec.
  unfold import_csv_stream. rewrite H1, H2. fold (Csv.reader pre) in Hrec.
  destruct (Csv.reader pre).1 as [|fieldnames recs] eqn:Hpre; [done|].
  cbn [app head tail from_option id].
  unfold Csv.dict_rows. rewrite !filter_app, filter_cons_False; [done|].
  by intros [].
Qed.

End BlankLines.

(** ** The header with a byte-order mark *)

(** A larger field size limit does not change what the parser does on
    a line on which it did not raise. *)
Lemma parse_add_char_mono (rt1 rt2 : Runtime) r c r' :
  (field_size_limit (Runtime := rt1) <= field_size_limit (Runtime := rt2))%N ->
  Csv.parse_add_char (rt := rt1) r c = inr r' ->
  Csv.parse_add_char (rt := rt2) r c = inr r'.
Proof.
  intros Hle. unfold Csv.parse_add_char.
  destruct (N.leb_spec (field_size_limit (Runtime := rt1))
              (N.of_nat (length (Csv.field r)))); [done|].
  intros ->. rewrite (proj2 (N.leb_gt _ _)); [done|lia].
Qed.

Lemma parse_process_char_mono (rt1 rt2 : Runtime) r c r' :
  (field_size_limit (Runtime := rt1) <= field_size_limit (Runtime := rt2))%N ->
  Csv.parse_process_char (rt := rt1) r c = inr r' ->
  Csv.parse_process_char (rt := rt2) r c = inr r'.
Proof.
  intros Hle. unfold Csv.parse_process_char, Csv.start_field, Csv.then_state.
  destruct (Csv.state r), c as [ch|]; try done;
    repeat (match goal with |- context [if ?b then _ else _] => destruct b end;
            try done);
    try (destruct (Csv.parse_add_char (rt := rt1) r ch) as [|r1] eqn:Hadd;
         [done|];
         by rewrite (parse_add_char_mono rt1 rt2 _ _ _ Hle Hadd)).
Qed.

Lemma parse_chars_mono (rt1 rt2 : Runtime) line : ∀ r r',
  (field_size_limit (Runtime := rt1) <= field_size_limit (Runtime := rt2))%N ->
  Csv.parse_chars (rt := rt1) r line = inr r' ->
  Csv.parse_chars (rt := rt2) r line = inr r'.
Proof.
  induction line as [|c line IH]; intros r r' Hle; simpl.
  - by apply parse_process_char_mono.
  - destruct (Csv.parse_process_char (rt := rt1) r (Some c)) as [|r1] eqn:Hc; [done|].
    rewrite (parse_process_char_mono rt1 rt2 _ _ _ Hle Hc). by apply IH.
Qed.

(** The first line of a text: up to its first line feed, when no
    carriage return comes before. *)
Lemma lines_from_first (s1 : str) : ∀ cur rest,
  forallb (fun c => negb (Csv.is_newline c)) s1 = true ->
  lines_from cur (s1 ++ 10%N :: rest) = (cur ++ s1 ++ [10%N]) :: lines_from [] rest.
Proof.
  induction s1 as [|c s1 IH]; intros cur rest Hs.
  - done.
  - simpl in Hs. apply andb_true_iff in Hs as [Hc Hs].
    unfold Csv.is_newline in Hc. apply negb_true_iff, orb_false_iff in Hc as [Hc1 Hc2].
    cbn [app lines_from]. rewrite Hc1, Hc2, IH by done.
    by rewrite <- (assoc_L (++)).
Qed.

Section ByteOrderMark.
Context {rt : Runtime} {env : Env}.

(** The reader on a first line that is a whole record. *)
Lemma reader_first_line line lines r :
  Csv.parse_chars Csv.parse_reset line = inr r ->
  Csv.state r = Csv.START_RECORD ->
  Csv.reader (line :: lines) =
    (Csv.fields r :: (Csv.reader lines).1, (Csv.reader lines).2).
Proof.
  intros Hp Hs. unfold Csv.reader. cbn [Csv.records_from].
  rewrite Hp, bool_decide_eq_true_2 by done.
  by destruct (Csv.records_from Csv.parse_reset lines).
Qed.

Lemma bom_header_line :
  (5 <= field_size_limit)%N ->
  Csv.parse_chars Csv.parse_reset (BOM :: lit "name,email,age" ++ [10%N]) =
    inr {| Csv.state := Csv.START_RECORD;
           Csv.fields := [BOM :: lit "name"; lit "email"; lit "age"];
           Csv.field := [] |}.
Proof.
  intros Hlim. by apply (parse_chars_mono short_fields rt).
Qed.

Lemma bom_header_not_ok :
  (∀ s, isascii s = true -> unicode_lower (BOM :: s) = BOM :: map ascii_lower s) ->
  header_ok [BOM :: lit "name"; lit "email"; lit "age"] = false.
Proof.
  intros Hlow. apply not_true_is_false. rewrite header_ok_iff. intros Hk.
  destruct (Hk (lit "name")) as (c & Hc & Hn); [set_solver|].
  assert (lower (strip (BOM :: lit "name")) = BOM :: lit "name") as Hb.
  { change (strip (BOM :: lit "name")) with (BOM :: lit "name").
    unfold lower. change (isascii (BOM :: lit "name")) with false.
    cbv iota. by rewrite Hlow. }
  apply list_elem_of_In in Hc. simpl in Hc.
  destruct Hc as [<-|[<-|[<-|[]]]].
  - rewrite Hb in Hn. discriminate Hn.
  - vm_compute in Hn. discriminate Hn.
  - vm_compute in Hn. discriminate Hn.
Qed.

(** C6, as the code has it. The byte-order mark is not removed: it stays
    the first character of the first field name. A text that is U+FEFF,
    the header line name,email,age and then anything makes the import
    raise the header error, and nothing is written. ([str.lower] keeps the
    mark in front of lower-cased ASCII; fields of 5 characters are within
    the field size limit.) *)
Theorem bom_header_rejected (rest : str) (db : Sqlite.Connection) :
  (5 <= field_size_limit)%N ->
  (∀ s, isascii s = true -> unicode_lower (BOM :: s) = BOM :: map ascii_lower s) ->
  ingest (BOM :: lit "name,email,age" ++ [10%N] ++ rest) db =
    (inl ValueError_header, db).
Proof.
  intros Hlim Hlow. unfold ingest, text_lines.
  change (BOM :: lit "name,email,age" ++ [10%N] ++ rest)
    with ((BOM :: lit "name,email,age") ++ 10%N :: rest).
  rewrite lines_from_first by done.
  change ([] ++ (BOM :: lit "name,email,age") ++ [10%N])
    with (BOM :: lit "name,email,age" ++ [10%N]).
  unfold import_csv_stream.
  rewrite (reader_first_line _ _ _ (bom_header_line Hlim) eq_refl).
  cbn [head default Csv.fields]. unfold id.
  by rewrite (bom_header_not_ok Hlow).
Qed.

End ByteOrderMark.

(** C6, as the claim states it, fails: the sample text is imported, and
    the same text after a byte-order mark is refused for its header. *)
Lemma bom_changes_summary :
  ingest (rt := plain) (env := steady) sample_text empty_db =
    (inr (1, []), {| Sqlite.customers := [alice]; Sqlite.sqlite_sequence := 1 |}) ∧
  ingest (rt := plain) (env := steady) (BOM :: sample_text) empty_db =
    (inl ValueError_header, empty_db) ∧
  ingest (rt := plain) (env := steady) (BOM :: sample_text) empty_db ≠
    ingest (rt := plain) (env := steady) sample_text empty_db.
Proof. split; [|split]; [by vm_compute..|]. by vm_compute. Qed.

Lemma bom_header_rejected_witness :
  ingest (rt := plain) (env := steady) (BOM :: sample_text) empty_db =
    (inl ValueError_header, empty_db).
Proof.
  apply (bom_header_rejected (rt := plain) (env := steady)
           (lit "Alice,alice@example.com,30" ++ [10%N]) empty_db).
  - vm_compute. discriminate.
  - intros s Hs. reflexivity.
Defined.

(** ** The case of the header *)

(** A key that is not among the field names, as they are written, is not
    in the rows. *)
Lemma make_row_lookup_None (fieldnames : list str) (rec : list str) (key : str) :
  key ∉ fieldnames -> Csv.make_row fieldnames rec !! key = None.
Proof.
  intros Hk. unfold Csv.make_row.
  assert (∀ (keys : list str) (d : gmap str (option str)),
            key ∉ keys -> d !! key = None ->
            foldl (fun d k => <[k := None]> d) d keys !! key = None) as Hrest.
  { induction keys as [|k keys IH]; intros d Hn Hd; [done|]. simpl.
    apply not_elem_of_cons in Hn as [Hne Hn].
    apply IH; [done|]. by rewrite lookup_insert_ne. }
  assert (∀ (kvs : list (str * str)) (d : gmap str (option str)),
            key ∉ kvs.*1 -> d !! key = None ->
            foldl (fun d kv => <[kv.1 := Some kv.2]> d) d kvs !! key = None) as Hzip.
  { induction kvs as [|[k v] kvs IH]; intros d Hn Hd; [done|]. simpl.
    rewrite fmap_cons in Hn. apply not_elem_of_cons in Hn as [Hne Hn].
    apply IH; [done|]. by rewrite lookup_insert_ne. }
  apply Hrest.
  - intros Hin. apply Hk. by eapply subseteq_drop.
  - apply Hzip; [|done]. intros Hin. apply Hk.
    apply list_elem_of_fmap in Hin as ([k v] & -> & Hin).
    by apply elem_of_zip_l in Hin.
Qed.

(** With a header in which no field is written exactly [name], every row
    gets the name message, whatever it holds. *)
Lemma name_lookup_needs_exact_header {rt : Runtime}
    (fieldnames : list str) (rec : list str) :
  lit "name" ∉ fieldnames ->
  check_row (Csv.make_row fieldnames rec) = Rejected MSG_NAME.
Proof.
  intros Hk. apply check_row_name. unfold get_or_empty.
  rewrite make_row_lookup_None by done. cbn. lia.
Qed.

(** C5 (the code departs from the claim). With the header Name,Email,Age
    the header test passes, but the rows are keyed by the field names as
    they are written, [row.get("name")] finds nothing, and the row that
    would be inserted under the header name,email,age is reported with the
    name message instead. *)
Theorem header_case_lost_in_lookup :
  ingest (rt := plain) (env := steady)
    (lit "Name,Email,Age" ++ [10%N] ++ lit "Alice,alice@example.com,30" ++ [10%N])
    empty_db =
    (inr (0, [{| row := 2; msg := MSG_NAME |}]), empty_db) ∧
  ingest (rt := plain) (env := steady)
    (lit "name,email,age" ++ [10%N] ++ lit "Alice,alice@example.com,30" ++ [10%N])
    empty_db =
    (inr (1, []), {| Sqlite.customers := [alice]; Sqlite.sqlite_sequence := 1 |}).
Proof. split; by vm_compute. Qed.

(** ** Runs of the first claims on concrete rows *)

Lemma validation_order_witness :
  loop_body (rt := plain) (env := steady) 2 (row_of "A" "nobody" "x") (0, [], empty_db) =
    inr (0, [{| row := 2; msg := MSG_NAME |}], empty_db) ∧
  loop_body (rt := plain) (env := steady) 2 (row_of "Al" "nobody" "x") (0, [], empty_db) =
    inr (0, [{| row := 2; msg := MSG_EMAIL |}], empty_db) ∧
  ((2 <= length (strip (get_or_empty (row_of "Al" "al@example.org" "200") (lit "name"))))%nat ∧
   EMAIL_RE_match (lower (rt := plain)
     (strip (get_or_empty (row_of "Al" "al@example.org" "200") (lit "email")))) = true).
Proof.
  split; [|split].
  - apply (proj1 (validation_order (rt := plain) (env := steady) 2
                    (row_of "A" "nobody" "x") 0 [] empty_db)).
    vm_compute. lia.
  - apply (proj1 (proj2 (validation_order (rt := plain) (env := steady) 2
                    (row_of "Al" "nobody" "x") 0 [] empty_db))).
    + vm_compute. lia.
    + reflexivity.
  - apply (proj2 (proj2 (validation_order (rt := plain) (env := steady) 2
                    (row_of "Al" "al@example.org" "200") 0 [] empty_db))).
    reflexivity.
Defined.


Lemma duplicate_email_and_store_fault_witness :
  loop (rt := plain) (env := steady)
    [row_of "Al" "al@example.org" "30"; row_of "Al" "al@example.org" "30"]
    2 (0, [], empty_db) =
  loop (rt := plain) (env := steady) [] (2 + 1 + 1)
    (0 + 1, [] ++ [{| row := 2 + 1; msg := MSG_DUPLICATE |}],
     {| Sqlite.customers := Sqlite.customers empty_db ++
          [{| Sqlite.id := Sqlite.next_id empty_db; Sqlite.name := lit "Al";
              Sqlite.email := lit "al@example.org"; Sqlite.age := 30;
              Sqlite.created_at :=
                isoformat_seconds (utcnow (Env := steady) 2) ++ lit "Z" |}];
        Sqlite.sqlite_sequence := Sqlite.next_id empty_db |}) ∧
  import_csv_stream (rt := plain) (env := failing_at_3)
    [lit "name,email,age" ++ [10%N]; lit "Al,al@example.org,30" ++ [10%N];
     lit "Bo,bo@example.org,40" ++ [10%N]] empty_db =
    (inl sqlite3_Error, empty_db).
Proof.
  split.
  - apply (proj1 (proj2 (duplicate_email_and_store_fault (rt := plain) (env := steady)
             2 (row_of "Al" "al@example.org" "30") (lit "Al") (lit "al@example.org")
             30 0 [] empty_db eq_refl))); [reflexivity..|].
    vm_compute. intros Hin. inversion Hin.
  - apply (proj2 (proj2 (duplicate_email_and_store_fault (rt := plain)
             (env := failing_at_3) 3 (row_of "Bo" "bo@example.org" "40")
             (lit "Bo") (lit "bo@example.org") 40 0 [] empty_db eq_refl))
             eq_refl _ empty_db [lit "name"; lit "email"; lit "age"]
             [[lit "Al"; lit "al@example.org"; lit "30"];
              [lit "Bo"; lit "bo@example.org"; lit "40"]]
             None [row_of "Al" "al@example.org" "30"] []
             (1, [], {| Sqlite.customers :=
                          [{| Sqlite.id := 1; Sqlite.name := lit "Al";
                              Sqlite.email := lit "al@example.org";
                              Sqlite.age := 30;
                              Sqlite.created_at := lit "2024-05-07T03:04:00Z" |}];
                        Sqlite.sqlite_sequence := 1 |}));
      by vm_compute.
Defined.

Lemma header_error_iff_witness :
  (import_csv_stream (rt := plain) (env := steady)
     [lit "name,email" ++ [10%N]; lit "Al,al@example.org" ++ [10%N]] empty_db).2 =
  empty_db.
Proof.
  apply (proj2 (header_error_iff (rt := plain) (env := steady) _ empty_db)).
  reflexivity.
Defined.

Lemma steady_clock_ok : ∀ i, datetime_ok (utcnow (Env := steady) i).
Proof. intros i. repeat split; by vm_compute. Qed.


Lemma inserted_records_listed_witness :
  Sqlite.select_all
    {| Sqlite.customers := [alice]; Sqlite.sqlite_sequence := 1 |} =
  [(lit "Alice", lit "alice@example.com", 30, lit "2024-05-07T03:04:00Z")].
Proof.
  refine (eq_trans
    (proj1 (inserted_records_listed (rt := plain) (env := steady) scenario
       empty_db 1 [{| row := 3; msg := MSG_EMAIL |}; {| row := 4; msg := MSG_AGE |}]
       {| Sqlite.customers := [alice]; Sqlite.sqlite_sequence := 1 |}
       steady_clock_ok _)) _); by vm_compute.
Defined.


Lemma blank_line_skipped_witness :
  import_csv_stream (rt := plain) (env := steady)
    ([lit "name,email,age" ++ [10%N]] ++ [10%N] :: [lit "x,nobody,1" ++ [10%N]])
    empty_db =
  import_csv_stream (rt := plain) (env := steady)
    ([lit "name,email,age" ++ [10%N]] ++ [lit "x,nobody,1" ++ [10%N]]) empty_db.
Proof.
  apply (proj1 (blank_line_skipped (rt := plain) (env := steady)
    [lit "name,email,age" ++ [10%N]] [10%N] [lit "x,nobody,1" ++ [10%N]] empty_db
    ltac:(done) ltac:(by vm_compute) eq_refl)).
Defined.

(** * Further properties of the import *)

(** ** [str.strip] *)

Lemma lstrip_app_space (ws s : str) :
  forallb isspace ws = true -> lstrip (ws ++ s) = lstrip s.
Proof.
  induction ws as [|c ws IH]; [done|]. simpl.
  intros [Hc Hws]%andb_true_iff. rewrite Hc. by apply IH.
Qed.

Lemma lstrip_all_space (s : str) : forallb isspace s = true -> lstrip s = [].
Proof.
  intros Hs. rewrite <- (app_nil_r s). by rewrite lstrip_app_space.
Qed.

(** [lstrip] cuts a run of whitespace off the front. *)
Lemma lstrip_split (s : str) :
  ∃ ws, s = ws ++ lstrip s ∧ forallb isspace ws = true ∧
        (lstrip s = [] ∨ ∃ c t, lstrip s = c :: t ∧ isspace c = false).
Proof.
  induction s as [|c s (ws & Hs & Hws & Hl)]; [exists []; auto|].
  simpl. destruct (isspace c) eqn:Hc.
  - exists (c :: ws). split; [by rewrite Hs at 1|]. split; [|done].
    simpl. by rewrite Hc.
  - exists []. split; [done|]. split; [done|]. right. eauto.
Qed.

Lemma lstrip_app_keep (s t : str) : lstrip s ≠ [] -> lstrip (s ++ t) = lstrip s ++ t.
Proof.
  induction s as [|c s IH]; [done|]. simpl.
  destruct (isspace c); [apply IH|done].
Qed.

Lemma forallb_isspace_reverse (s : str) :
  forallb isspace (reverse s) = forallb isspace s.
Proof.
  induction s as [|c s IH]; [done|].
  rewrite reverse_cons, forallb_app, IH. simpl. rewrite andb_true_r. apply andb_comm.
Qed.

Lemma rstrip_app_space (s ws : str) :
  forallb isspace ws = true -> rstrip (s ++ ws) = rstrip s.
Proof.
  intros Hws. unfold rstrip. rewrite reverse_app, lstrip_app_space; [done|].
  by rewrite forallb_isspace_reverse.
Qed.

Lemma rstrip_all_space (s : str) : forallb isspace s = true -> rstrip s = [].
Proof.
  intros Hs. unfold rstrip. rewrite lstrip_all_space; [done|].
  by rewrite forallb_isspace_reverse.
Qed.

(** [rstrip] cuts a run of whitespace off the end. *)
Lemma rstrip_split (s : str) :
  ∃ ws, s = rstrip s ++ ws ∧ forallb isspace ws = true.
Proof.
  destruct (lstrip_split (reverse s)) as (ws & Hs & Hws & _).
  exists (reverse ws). split.
  - unfold rstrip. rewrite <- reverse_app, <- Hs. by rewrite reverse_involutive.
  - by rewrite forallb_isspace_reverse.
Qed.

Lemma lstrip_starts (s : str) c t :
  lstrip s = c :: t -> isspace c = false.
Proof.
  destruct (lstrip_split s) as (ws & _ & _ & [Hl|(c' & t' & Hl & Hc)]);
    rewrite Hl; [done|]. by intros [= <- <-].
Qed.

(** Whitespace around a value does not change what [strip] gives. *)
Lemma strip_padded (ws1 v ws2 : str) :
  forallb isspace ws1 = true -> forallb isspace ws2 = true ->
  strip (ws1 ++ v ++ ws2) = strip v.
Proof.
  intros H1 H2. unfold strip. rewrite lstrip_app_space by done.
  destruct (lstrip v) as [|c t] eqn:Hv.
  - destruct (lstrip_split v) as (ws & Hs & Hws & _).
    rewrite Hv, app_nil_r in Hs. subst ws.
    rewrite lstrip_all_space; [done|]. rewrite forallb_app. by rewrite Hws, H2.
  - rewrite lstrip_app_keep by (by rewrite Hv). rewrite Hv.
    by apply rstrip_app_space.
Qed.

(** A stripped string has no whitespace at either end: [strip] leaves
    it as it is. *)
Lemma strip_idemp (s : str) : strip (strip s) = strip s.
Proof.
  unfold strip. set (u := lstrip s).
  assert (lstrip (rstrip u) = rstrip u) as ->.
  { destruct (rstrip_split u) as (ws & Hu & Hws).
    destruct (rstrip u) as [|c t] eqn:Hr; [done|].
    assert (isspace c = false) as Hc.
    { subst u. destruct (lstrip s) as [|c' t'] eqn:Hl; [done|].
      injection Hu as -> _. by eapply lstrip_starts. }
    simpl. by rewrite Hc. }
  destruct (rstrip_split u) as (ws & Hu & Hws).
  rewrite Hu at 2. by rewrite rstrip_app_space.
Qed.

(** ** What an import that returned has gone through *)

Section MoreOnImport.
Context {rt : Runtime} {env : Env}.

Lemma import_returned text_stream db ok errors db' :
  import_csv_stream text_stream db = (inr (ok, errors), db') ->
  header_ok (default [] (head (Csv.reader text_stream).1)) = true ∧
  (Csv.reader text_stream).2 = None ∧
  loop (data_rows text_stream) 2 (0, [], db) = inr (ok, errors, db').
Proof.
  unfold import_csv_stream, data_rows.
  destruct (Csv.reader text_stream) as [recs e]. cbn [fst snd]. intros Hi.
  assert ((if negb (header_ok (default [] (head recs)))
           then (inl ValueError_header, db)
           else match loop (Csv.dict_rows (default [] (head recs)) (tail recs))
                        2 (0, [], db) with
                | inl x => (inl x, db)
                | inr (ok, errors, con) =>
                    match e with
                    | Some e => (inl (csv_Error e), db)
                    | None => (inr (ok, errors), con)
                    end
                end) = (inr (ok, errors), db')) as Hi'.
  { destruct recs; [destruct e|]; done. }
  clear Hi. destruct (header_ok _); [|done]. cbn [negb] in Hi'.
  destruct (loop _ _ _) as [|[[ok1 errors1] con1]]; [done|].
  destruct e; [done|]. by injection Hi' as -> -> ->.
Qed.

Lemma import_of_loop text_stream db ok errors db' :
  header_ok (default [] (head (Csv.reader text_stream).1)) = true ->
  (Csv.reader text_stream).2 = None ->
  loop (data_rows text_stream) 2 (0, [], db) = inr (ok, errors, db') ->
  import_csv_stream text_stream db = (inr (ok, errors), db').
Proof.
  unfold import_csv_stream, data_rows.
  destruct (Csv.reader text_stream) as [recs e]. cbn [fst snd].
  intros Hh -> Hl.
  assert ((if negb (header_ok (default [] (head recs)))
           then (inl ValueError_header, db)
           else match loop (Csv.dict_rows (default [] (head recs)) (tail recs))
                        2 (0, [], db) with
                | inl x => (inl x, db)
                | inr (ok, errors, con) => (inr (ok, errors), con)
                end) = (inr (ok, errors), db')) as Hi'.
  { by rewrite Hh, Hl. }
  by destruct recs.
Qed.

(** An import that raises leaves the database as it was. *)
Lemma import_raised text_stream db x db' :
  import_csv_stream text_stream db = (inl x, db') -> db' = db.
Proof.
  intros Hi. unfold import_csv_stream in Hi.
  destruct (Csv.reader text_stream) as [recs e].
  assert (∀ y, (if negb (header_ok (default [] (head recs)))
           then (inl ValueError_header, db)
           else match loop (Csv.dict_rows (default [] (head recs)) (tail recs))
                        2 (0, [], db) with
                | inl x => (inl x, db)
                | inr (ok, errors, con) =>
                    match e with
                    | Some e => (inl (csv_Error e), db)
                    | None => (inr (ok, errors), con)
                    end
                end) = (inl y, db') -> db' = db) as Hgen.
  { intros y. destruct (negb _); [by intros [= _ <-]|].
    destruct (loop _ _ _) as [|[[ok1 errors1] con1]]; [by intros [= _ <-]|].
    destruct e; [by intros [= _ <-]|done]. }
  destruct recs as [|f recs]; [destruct e|]; try (by eapply Hgen).
  by injection Hi as _ <-.
Qed.

(** Whatever the import does, the database afterwards is the one before
    or the one that a run of the loop left. *)
Lemma import_database text_stream db res db' :
  import_csv_stream text_stream db = (res, db') ->
  db' = db ∨ ∃ errs added, run 2 (data_rows text_stream) db errs added db'.
Proof.
  destruct res as [x|[ok errors]].
  - intros ->%import_raised. by left.
  - intros (_ & _ & Hl)%import_returned. right.
    apply loop_run in Hl as (new & added & Hrun & _ & _). eauto.
Qed.

End MoreOnImport.

(** ** A second import, and what no import does *)

Section Reimport.
Context {rt : Runtime} {env : Env}.

(** When the email of every row that passes the checks is in the table,
    the loop inserts nothing and reports every row. *)
Lemma loop_all_present (env2 : Env) rows :
  (∀ j, store_fault (Env := env2) j = false) ->
  ∀ i ok errs con,
    (∀ r name email age, r ∈ rows -> check_row r = Accepted name email age ->
       email ∈ emails con) ->
    loop (env := env2) rows i (ok, errs, con) =
      inr (ok, errs ++ (reported <$> enumerate i rows), con).
Proof.
  intros Hf. induction rows as [|r rows IH]; intros i ok errs con Hin.
  - cbn. by rewrite app_nil_r.
  - cbn [loop enumerate fmap list_fmap].
    assert (loop_body (env := env2) i r (ok, errs, con) =
            inr (ok, errs ++ [reported (i, r)], con)) as ->.
    { unfold reported. cbn [fst snd].
      destruct (check_row r) as [m|name email age] eqn:Hc.
      - by apply loop_body_rejected.
      - eapply loop_body_duplicate; [done|apply Hf|].
        eapply Hin; [apply list_elem_of_here|done]. }
    rewrite IH.
    + by rewrite <- (assoc_L (++)).
    + intros r' name email age Hr'. apply Hin. by apply list_elem_of_further.
Qed.

(** X1. After an import that returned, an import of the same stream (with a
    database that does not fail) inserts nothing, leaves the table as it
    is, and reports every data row: the rows that failed a check with the
    message of that check again, all the others as duplicates. *)
Theorem reimport_reports_every_row (env2 : Env) text_stream db ok errors db1 :
  import_csv_stream (env := env) text_stream db = (inr (ok, errors), db1) ->
  (∀ j, store_fault (Env := env2) j = false) ->
  import_csv_stream (env := env2) text_stream db1 =
    (inr (0, reported <$> enumerate 2 (data_rows text_stream)), db1).
Proof.
  intros (Hh & He & Hl)%import_returned Hf.
  apply import_of_loop; [done..|].
  apply loop_run in Hl as (new & added & Hrun & _ & _).
  rewrite (loop_all_present env2 _ Hf); [done|].
  intros r name email age [k Hk]%list_elem_of_lookup_1 Hc.
  exact (run_email_present _ _ _ _ _ _ Hrun _ _ _ _ _ Hk Hc).
Qed.

(** The records that a run inserted come from rows that passed the
    checks, with the values that the checks gave. *)
Lemma run_added_checked i rows con errs added con' :
  run i rows con errs added con' ->
  ∀ c, c ∈ added ->
    (∃ r, r ∈ rows ∧
          check_row r = Accepted (Sqlite.name c) (Sqlite.email c) (Sqlite.age c)) ∧
    Sqlite.sqlite_sequence con < Sqlite.id c.
Proof.
  induction 1 as [|i r rows con m errs added con' Hc Hrun IH
                  |i r rows con name email age errs added con' Hc Hin Hrun IH
                  |i r rows con name email age errs added con' Hc Hin Hrun IH];
    intros c Hc'.
  - by apply elem_of_nil in Hc'.
  - destruct (IH c Hc') as [(r' & Hr' & Hch) Hs]. split; [|done].
    exists r'. split; [by apply list_elem_of_further|done].
  - destruct (IH c Hc') as [(r' & Hr' & Hch) Hs]. split; [|done].
    exists r'. split; [by apply list_elem_of_further|done].
  - apply elem_of_cons in Hc' as [->|Hc'].
    + split; [|by apply next_id_above].
      exists r. split; [apply list_elem_of_here|done].
    + destruct (IH c Hc') as [(r' & Hr' & Hch) Hs]. split.
      * exists r'. split; [by apply list_elem_of_further|done].
      * cbn in Hs. pose proof (proj1 (next_id_above con)). lia.
Qed.

(** X2. Whatever an import returns or raises: the records that were in the
    table are still there, unchanged and in their places, followed by the
    new ones; if no two records had the same email before, no two have
    afterwards; the same holds for the ids. *)
Theorem import_keeps_table text_stream db res db' :
  import_csv_stream text_stream db = (res, db') ->
  (∃ added, Sqlite.customers db' = Sqlite.customers db ++ added) ∧
  (NoDup (emails db) -> NoDup (emails db')) ∧
  (NoDup (Sqlite.id <$> Sqlite.customers db) ->
   NoDup (Sqlite.id <$> Sqlite.customers db')).
Proof.
  intros [->|(errs & added & Hrun)]%import_database.
  { split; [|done]. exists []. by rewrite app_nil_r. }
  pose proof (run_customers _ _ _ _ _ _ Hrun) as Hcu.
  pose proof (run_added_emails _ _ _ _ _ _ Hrun) as [Hnd Hfresh].
  pose proof (run_ids _ _ _ _ _ _ Hrun) as [Hids Hsorted].
  split; [by exists added|]. unfold emails. rewrite Hcu, !fmap_app. split.
  - intros Hdb. apply NoDup_app. split; [done|]. split; [|done].
    intros e He (c & -> & Hc)%list_elem_of_fmap. by apply (Hfresh c Hc).
  - intros Hdb. apply NoDup_app. split; [done|]. split.
    + intros x (d & -> & Hd)%list_elem_of_fmap (c & Heq & Hc)%list_elem_of_fmap.
      rewrite Forall_forall in Hids. specialize (Hids c Hc d Hd). lia.
    + clear -Hsorted. induction Hsorted as [|c added Hs IH Hlt]; [constructor|].
      rewrite fmap_cons. constructor; [|done].
      intros (d & Heq & Hd)%list_elem_of_fmap.
      rewrite Forall_forall in Hlt. specialize (Hlt d Hd). lia.
Qed.

(** X3. Every record that an import adds to the table is within the rules:
    a name of at least 2 characters with no whitespace around it, an
    email that [EMAIL_RE] matches, an age from 1 to 120, an id above the
    ids given out before. *)
Theorem inserted_records_valid text_stream db res db' c :
  import_csv_stream text_stream db = (res, db') ->
  c ∈ Sqlite.customers db' ->
  c ∈ Sqlite.customers db ∨
  (strip (Sqlite.name c) = Sqlite.name c ∧ (2 <= length (Sqlite.name c))%nat ∧
   EMAIL_RE_match (Sqlite.email c) = true ∧ 1 <= Sqlite.age c <= 120 ∧
   Sqlite.sqlite_sequence db < Sqlite.id c).
Proof.
  intros [->|(errs & added & Hrun)]%import_database Hc; [by left|].
  rewrite (run_customers _ _ _ _ _ _ Hrun) in Hc.
  apply elem_of_app in Hc as [Hc|Hc]; [by left|]. right.
  destruct (run_added_checked _ _ _ _ _ _ Hrun c Hc) as [(r & _ & Hch) Hs].
  apply check_row_accepted in Hch as (Hn & He & Hlen & Hm & _ & Ha).
  split; [|done]. rewrite Hn. apply strip_idemp.
Qed.

End Reimport.

Lemma reimport_reports_every_row_witness :
  import_csv_stream (rt := plain) (env := steady) scenario
    {| Sqlite.customers := [alice]; Sqlite.sqlite_sequence := 1 |} =
  (inr (0, [{| row := 2; msg := MSG_DUPLICATE |}; {| row := 3; msg := MSG_EMAIL |};
            {| row := 4; msg := MSG_AGE |}]),
   {| Sqlite.customers := [alice]; Sqlite.sqlite_sequence := 1 |}).
Proof.
  refine (eq_trans (reimport_reports_every_row (rt := plain) (env := steady) steady
    scenario empty_db 1
    [{| row := 3; msg := MSG_EMAIL |}; {| row := 4; msg := MSG_AGE |}]
    {| Sqlite.customers := [alice]; Sqlite.sqlite_sequence := 1 |}
    ltac:(by vm_compute) (fun _ => eq_refl)) _).
  by vm_compute.
Defined.

Lemma import_keeps_table_witness :
  NoDup (emails {| Sqlite.customers := [alice]; Sqlite.sqlite_sequence := 1 |}).
Proof.
  apply (proj1 (proj2 (import_keeps_table (rt := plain) (env := steady) scenario
    empty_db (inr (1, [{| row := 3; msg := MSG_EMAIL |}; {| row := 4; msg := MSG_AGE |}]))
    {| Sqlite.customers := [alice]; Sqlite.sqlite_sequence := 1 |}
    ltac:(by vm_compute)))).
  constructor.
Defined.

Lemma inserted_records_valid_witness :
  alice ∈ Sqlite.customers empty_db ∨
  (strip (Sqlite.name alice) = Sqlite.name alice ∧
   (2 <= length (Sqlite.name alice))%nat ∧
   EMAIL_RE_match (Sqlite.email alice) = true ∧ 1 <= Sqlite.age alice <= 120 ∧
   Sqlite.sqlite_sequence empty_db < Sqlite.id alice).
Proof.
  apply (inserted_records_valid (rt := plain) (env := steady) scenario empty_db
    (inr (1, [{| row := 3; msg := MSG_EMAIL |}; {| row := 4; msg := MSG_AGE |}]))
    {| Sqlite.customers := [alice]; Sqlite.sqlite_sequence := 1 |} alice
    ltac:(by vm_compute)).
  apply list_elem_of_here.
Defined.

(** ** The values of a row ([DictReader], lines 88-91) *)

Section RowValues.
Context {rt : Runtime}.

Lemma foldl_insert_notin {X} (key : X -> str) (val : X -> option str)
    (l : list X) (k : str) : ∀ d : gmap str (option str),
  k ∉ key <$> l ->
  foldl (fun d x => <[key x := val x]> d) d l !! k = d !! k.
Proof.
  induction l as [|x l IH]; intros d Hk; [done|]. simpl.
  rewrite fmap_cons in Hk. apply not_elem_of_cons in Hk as [Hne Hk].
  rewrite IH by done. by rewrite lookup_insert_ne.
Qed.

Lemma foldl_insert_last {X} (key : X -> str) (val : X -> option str)
    (l1 l2 : list X) (x : X) (d : gmap str (option str)) :
  key x ∉ key <$> l2 ->
  foldl (fun d x => <[key x := val x]> d) d (l1 ++ x :: l2) !! key x =
    Some (val x).
Proof.
  intros Hk. rewrite foldl_app. simpl.
  rewrite foldl_insert_notin by done. by rewrite lookup_insert_eq.
Qed.

(** The value of a field name in a row is the value in the last column
    of that name; a column that the row is too short for has no value. *)
Lemma make_row_lookup (pre post rec : list str) (k : str) :
  k ∉ post ->
  Csv.make_row (pre ++ k :: post) rec !! k = Some (rec !! length pre).
Proof.
  intros Hk. unfold Csv.make_row.
  destruct (decide (length pre < length rec)%nat) as [Hlt|Hge].
  - destruct (lookup_lt_is_Some_2 rec (length pre) Hlt) as [v Hv].
    rewrite Hv.
    rewrite (foldl_insert_notin id (fun _ => None)).
    + rewrite <- (take_drop (length pre) rec) at 1.
      rewrite zip_with_app by (rewrite length_take; lia).
      rewrite (drop_S _ _ _ Hv). cbn [zip_with].
      apply (foldl_insert_last fst (fun kv => Some kv.2) _ _ (k, v)).
      intros (kv & Hkv & Hin)%list_elem_of_fmap. apply Hk.
      destruct kv as [k' v']. cbn in Hkv. subst k'. by eapply elem_of_zip_l.
    + rewrite list_fmap_id. intros Hin. apply Hk.
      rewrite drop_app_ge in Hin by lia.
      destruct (length rec - length pre)%nat as [|n] eqn:Hn; [lia|].
      cbn in Hin. by eapply subseteq_drop.
  - rewrite (lookup_ge_None_2 rec (length pre)) by lia.
    rewrite drop_app_le by lia.
    apply (foldl_insert_last id (fun _ => None) _ _ k).
    by rewrite list_fmap_id.
Qed.

(** X4. [row.get(k) or ""] on a row of [DictReader]: when the name [k]
    is written several times in the header, the value of its last column
    is taken; when the row is too short to reach that column, or the
    header has no such name, the value is the empty string. *)
Theorem row_value_of_last_column (fieldnames rec : list str) (k : str) :
  (k ∉ fieldnames -> get_or_empty (Csv.make_row fieldnames rec) k = []) ∧
  (∀ pre post, fieldnames = pre ++ k :: post -> k ∉ post ->
     get_or_empty (Csv.make_row fieldnames rec) k = default [] (rec !! length pre)).
Proof.
  split.
  - intros Hk. unfold get_or_empty. by rewrite make_row_lookup_None.
  - intros pre post -> Hk. unfold get_or_empty. rewrite make_row_lookup by done.
    by destruct (rec !! length pre).
Qed.

(** A row without a value for one of the three names fails a check. *)
Lemma empty_value_rejected (r : gmap str (option str)) (k : str) :
  k ∈ [lit "name"; lit "email"; lit "age"] ->
  get_or_empty r k = [] ->
  ∃ m, check_row r = Rejected m.
Proof.
  intros Hk Hv. unfold check_row.
  case_bool_decide as Hn; [eauto|].
  destruct (EMAIL_RE_match _) eqn:He; cbn [negb]; [|eauto].
  destruct (int _) as [a|] eqn:Ha; [|eauto].
  rewrite !elem_of_cons, elem_of_nil in Hk.
  destruct Hk as [->|[->|[->|[]]]]; rewrite Hv in *.
  - cbn in Hn. lia.
  - by cbn in He.
  - by cbn in Ha.
Qed.

(** X5. A data row that is too short to have a value in every column
    named name, or email, or age is never inserted: it fails a check. *)
Theorem short_row_rejected (fieldnames rec : list str) (k : str) :
  k ∈ [lit "name"; lit "email"; lit "age"] ->
  (∀ i, fieldnames !! i = Some k -> (length rec <= i)%nat) ->
  ∃ m, check_row (Csv.make_row fieldnames rec) = Rejected m.
Proof.
  intros Hk Hshort. apply (empty_value_rejected _ k Hk).
  destruct (decide (k ∈ fieldnames)) as [Hin|Hin].
  - apply list_elem_of_split_r in Hin as (pre & post & -> & Hpost).
    unfold get_or_empty. rewrite make_row_lookup by done.
    rewrite lookup_ge_None_2; [done|]. apply Hshort.
    by rewrite lookup_app_r, Nat.sub_diag.
  - unfold get_or_empty. by rewrite make_row_lookup_None.
Qed.

Lemma get_or_empty_insert (r : gmap str (option str)) (k k' v : str) :
  get_or_empty (<[k := Some v]> r) k' =
    if decide (k = k') then v else get_or_empty r k'.
Proof.
  unfold get_or_empty. rewrite lookup_insert. by destruct (decide (k = k')).
Qed.

(** X6. Whitespace around the value of a row does not count: a row and
    the same row with whitespace before and after one of its values get
    the same outcome of the checks, with the same values to insert. *)
Theorem surrounding_whitespace_ignored (r : gmap str (option str))
    (k v ws1 ws2 : str) :
  forallb isspace ws1 = true -> forallb isspace ws2 = true ->
  check_row (<[k := Some (ws1 ++ v ++ ws2)]> r) = check_row (<[k := Some v]> r).
Proof.
  intros H1 H2. unfold check_row. rewrite !get_or_empty_insert.
  by repeat (destruct (decide _); rewrite ?strip_padded by done).
Qed.

End RowValues.

Lemma row_value_of_last_column_witness :
  get_or_empty (Csv.make_row [lit "name"; lit "age"; lit "name"]
                             [lit "first"; lit "30"; lit "second"]) (lit "name") =
  lit "second".
Proof.
  apply (proj2 (row_value_of_last_column
    [lit "name"; lit "age"; lit "name"] [lit "first"; lit "30"; lit "second"]
    (lit "name")) [lit "name"; lit "age"] [] eq_refl).
  by intros ?%elem_of_nil.
Defined.

Lemma short_row_rejected_witness :
  ∃ m, check_row (rt := plain)
         (Csv.make_row [lit "name"; lit "email"; lit "age"]
                       [lit "Alice"; lit "alice@example.com"]) = Rejected m.
Proof.
  apply (short_row_rejected (rt := plain) [lit "name"; lit "email"; lit "age"]
           [lit "Alice"; lit "alice@example.com"] (lit "age")).
  - do 2 apply list_elem_of_further. apply list_elem_of_here.
  - intros [|[|[|i]]]; cbn; try done; intros _; lia.
Defined.

Lemma surrounding_whitespace_ignored_witness :
  check_row (rt := plain)
    (<[lit "name" := Some (lit "  " ++ lit "Alice" ++ [9%N; 160%N])]>
       (row_of "x" "alice@example.com" "30")) =
  check_row (rt := plain)
    (<[lit "name" := Some (lit "Alice")]> (row_of "x" "alice@example.com" "30")).
Proof.
  apply (surrounding_whitespace_ignored (rt := plain)); reflexivity.
Defined.

(** ** The listings ([export], line 149; [home] and [upload], lines 138
    and 188) *)

Lemma insert_by_id_perm c l : Sqlite.insert_by_id c l ≡ₚ c :: l.
Proof.
  induction l as [|d l IH]; [done|]. simpl.
  destruct (Sqlite.id c <? Sqlite.id d); [done|].
  rewrite IH. apply Permutation_swap.
Qed.

Lemma order_by_id_perm l : Sqlite.order_by_id l ≡ₚ l.
Proof.
  unfold Sqlite.order_by_id.
  assert (∀ acc, foldl (fun acc c => Sqlite.insert_by_id c acc) acc l ≡ₚ acc ++ l)
    as Hg.
  { induction l as [|c l IH]; intros acc; simpl; [by rewrite app_nil_r|].
    rewrite IH, insert_by_id_perm. by rewrite <- Permutation_middle. }
  apply Hg.
Qed.

Lemma insert_by_id_sorted c l :
  StronglySorted (fun a b => Sqlite.id a <= Sqlite.id b) l ->
  StronglySorted (fun a b => Sqlite.id a <= Sqlite.id b) (Sqlite.insert_by_id c l).
Proof.
  induction 1 as [|d l Hs IH Hd]; simpl; [repeat constructor|].
  destruct (Z.ltb_spec (Sqlite.id c) (Sqlite.id d)) as [Hlt|Hge].
  - constructor; [by constructor|]. constructor; [lia|].
    eapply Forall_impl; [exact Hd|]. intros x Hx. simpl in Hx. lia.
  - constructor; [done|].
    rewrite insert_by_id_perm. constructor; [done|done].
Qed.

Lemma order_by_id_sorted l :
  StronglySorted (fun a b => Sqlite.id a <= Sqlite.id b) (Sqlite.order_by_id l).
Proof.
  unfold Sqlite.order_by_id.
  assert (∀ acc, StronglySorted (fun a b => Sqlite.id a <= Sqlite.id b) acc ->
    StronglySorted (fun a b => Sqlite.id a <= Sqlite.id b)
      (foldl (fun acc c => Sqlite.insert_by_id c acc) acc l)) as Hg.
  { induction l as [|c l IH]; intros acc Hacc; simpl; [done|].
    by apply IH, insert_by_id_sorted. }
  apply Hg. constructor.
Qed.

(** X7. The listing of [export] holds every record of the table exactly
    once, by increasing id. *)
Theorem export_lists_all_by_id (con : Sqlite.Connection) :
  ∃ l, Sqlite.select_all con = columns <$> l ∧
       l ≡ₚ Sqlite.customers con ∧
       StronglySorted (fun a b => Sqlite.id a <= Sqlite.id b) l.
Proof.
  exists (Sqlite.order_by_id (Sqlite.customers con)).
  split; [done|]. split; [apply order_by_id_perm|apply order_by_id_sorted].
Qed.

Lemma StronglySorted_reverse {A} (R : A -> A -> Prop) (l : list A) :
  StronglySorted R l -> StronglySorted (fun a b => R b a) (reverse l).
Proof.
  induction 1 as [|x l Hs IH Hx]; [constructor|].
  rewrite reverse_cons. apply StronglySorted_app_2; [|done|repeat constructor].
  intros a b Ha ->%list_elem_of_singleton.
  rewrite Forall_forall in Hx. apply Hx. by apply elem_of_reverse.
Qed.

(** X8. The listing of the pages holds at most 50 records, all the
    records when there are no more than 50, by decreasing id; the records
    that it leaves out have ids that are not above the ids of those that
    it shows. *)
Theorem recent_lists_the_newest (con : Sqlite.Connection) :
  ∃ shown hidden,
    select_recent con =
      (fun c => (Sqlite.id c, Sqlite.name c, Sqlite.email c, Sqlite.age c,
                 Sqlite.created_at c)) <$> shown ∧
    shown ++ hidden ≡ₚ Sqlite.customers con ∧
    length shown = (50 `min` length (Sqlite.customers con))%nat ∧
    StronglySorted (fun a b => Sqlite.id b <= Sqlite.id a) shown ∧
    (∀ a b, a ∈ shown -> b ∈ hidden -> Sqlite.id b <= Sqlite.id a).
Proof.
  set (l := reverse (Sqlite.order_by_id (Sqlite.customers con))).
  assert (StronglySorted (fun a b => Sqlite.id b <= Sqlite.id a) l) as Hs.
  { apply (StronglySorted_reverse (fun a b => Sqlite.id a <= Sqlite.id b)),
      order_by_id_sorted. }
  assert (l ≡ₚ Sqlite.customers con) as Hp.
  { unfold l. by rewrite reverse_Permutation, order_by_id_perm. }
  exists (take 50 l), (drop 50 l).
  split; [unfold select_recent; by rewrite fmap_take|].
  rewrite take_drop. split; [done|].
  split; [rewrite length_take; by rewrite Hp|].
  rewrite <- (take_drop 50 l) in Hs.
  apply StronglySorted_app in Hs as (Hs2 & Hs1 & _). split; [done|].
  intros a b Ha Hb. by apply Hs2.
Qed.

(** ** Reading a text by lines and by characters *)

Section TextAndLines.
Context {rt : Runtime}.

Lemma parse_chars_feed (p : str) : ∀ r,
  Csv.parse_chars r p =
    match feed r p with
    | inl e => inl e
    | inr r' => Csv.parse_process_char r' None
    end.
Proof.
  induction p as [|c p IH]; intros r; [done|]. cbn [Csv.parse_chars feed].
  destruct (Csv.parse_process_char r (Some c)); [done|apply IH].
Qed.

Lemma feed_app (p q : str) : ∀ r,
  feed r (p ++ q) =
    match feed r p with
    | inl e => inl e
    | inr r' => feed r' q
    end.
Proof.
  induction p as [|c p IH]; intros r; [done|]. cbn [app feed].
  destruct (Csv.parse_process_char r (Some c)); [done|apply IH].
Qed.

(** The records of a line and of the lines after it. *)
Lemma records_from_line (r0 : Csv.ReaderObj) (p : str) (L : list str) :
  Csv.records_from r0 (p :: L) =
    match feed r0 p with
    | inl e => ([], Some e)
    | inr rc => line_end rc (fun r' => Csv.records_from r' L)
    end.
Proof.
  cbn [Csv.records_from]. rewrite parse_chars_feed. unfold line_end.
  destruct (feed r0 p) as [|rc]; [done|].
  by destruct (Csv.parse_process_char rc None).
Qed.

Lemma line_end_ext r k1 k2 :
  (∀ r', k1 r' = k2 r') -> line_end r k1 = line_end r k2.
Proof.
  intros Hk. unfold line_end. destruct (Csv.parse_process_char r None); [done|].
  by rewrite !Hk.
Qed.

(** A line that has begun goes on in the first of the lines. *)
Lemma lines_from_begun (s : str) : ∀ cur,
  cur ≠ [] -> ∃ l L, lines_from cur s = (cur ++ l) :: L.
Proof.
  induction s as [|c s IH]; intros cur Hcur.
  - exists [], []. destruct cur; [done|]. by rewrite app_nil_r.
  - cbn [lines_from]. destruct (c =? 10)%N; [by eauto|].
    destruct (c =? 13)%N.
    + destruct s as [|d s]; [by eauto|]. destruct (d =? 10)%N; by eauto.
    + destruct (IH (cur ++ [c])) as (l & L & ->); [by destruct cur|].
      exists (c :: l), L. by rewrite <- (assoc_L (++)).
Qed.

(** Reading the lines of a text is reading its characters, with the
    ends of lines where [text_lines] puts them. *)
Lemma records_of_lines_from (n : nat) : ∀ s cur r0 rc,
  (length s < n)%nat ->
  feed r0 cur = inr rc ->
  Csv.records_from r0 (lines_from cur s) =
    records_of_text rc (bool_decide (cur ≠ [])) s.
Proof.
  induction n as [|n IH]; intros s cur r0 rc Hn Hcur; [lia|].
  assert (∀ s', (length s' < n)%nat -> ∀ r',
            Csv.records_from r' (lines_from [] s') = records_of_text r' false s')
    as IH0.
  { intros s' Hs' r'. by rewrite (IH s' [] r' r' Hs'). }
  destruct s as [|c s].
  - cbn [lines_from records_of_text]. destruct cur as [|c0 cur].
    + by injection Hcur as ->.
    + rewrite bool_decide_eq_true_2 by done. rewrite records_from_line.
      by rewrite Hcur.
  - cbn [length] in Hn. cbn [lines_from records_of_text].
    destruct (c =? 10)%N eqn:Hc10.
    { rewrite records_from_line, feed_app, Hcur. cbn [feed].
      destruct (Csv.parse_process_char rc (Some c)) as [|r1]; [done|].
      apply line_end_ext. intros r'. apply IH0. lia. }
    destruct (c =? 13)%N eqn:Hc13.
    { destruct s as [|d s].
      - rewrite records_from_line, feed_app, Hcur. cbn [feed].
        by destruct (Csv.parse_process_char rc (Some c)) as [|r1].
      - cbn [length] in Hn. destruct (d =? 10)%N eqn:Hd.
        + rewrite records_from_line, feed_app, Hcur. cbn [feed].
          destruct (Csv.parse_process_char rc (Some c)) as [|r1]; [done|].
          destruct (Csv.parse_process_char r1 (Some d)) as [|r2]; [done|].
          apply line_end_ext. intros r'. apply IH0. lia.
        + rewrite records_from_line, feed_app, Hcur. cbn [feed].
          destruct (Csv.parse_process_char rc (Some c)) as [|r1]; [done|].
          apply line_end_ext. intros r'. apply IH0. cbn [length]. lia. }
    destruct (Csv.parse_process_char rc (Some c)) as [e|r1] eqn:Hstep.
    + destruct (lines_from_begun s (cur ++ [c])) as (l & L & ->);
        [by destruct cur|].
      rewrite records_from_line, !feed_app, Hcur. cbn [feed]. by rewrite Hstep.
    + rewrite (IH s (cur ++ [c]) r0 r1) by (lia || (rewrite feed_app, Hcur; cbn [feed]; by rewrite Hstep)).
      f_equal. rewrite bool_decide_eq_true_2; [done|by destruct cur].
Qed.

(** For a whole text: what the reader gives for its lines. *)
Lemma reader_text_lines (s : str) :
  Csv.reader (text_lines s) = records_of_text Csv.parse_reset false s.
Proof.
  unfold Csv.reader, text_lines.
  by rewrite (records_of_lines_from (S (length s)) s [] Csv.parse_reset
                Csv.parse_reset) by (done || lia).
Qed.

End TextAndLines.

(** ** Reading what [csv.writer] wrote *)

Section WriterRead.
Context {rt : Runtime}.

Local Abbreviation mk := Csv.Build_ReaderObj.

Lemma add_char_within st fs f c :
  (N.of_nat (length f) < field_size_limit)%N ->
  Csv.parse_add_char (mk st fs f) c = inr (mk st fs (f ++ [c])).
Proof.
  intros Hlt. unfold Csv.parse_add_char. cbn [Csv.field Csv.state Csv.fields].
  by rewrite (proj2 (N.leb_gt _ _) Hlt).
Qed.

(** The characters that make the writer quote a field. *)
Lemma needs_quotes_cons c f :
  CsvWriter.needs_quotes (c :: f) = false <->
  ((c =? Csv.delimiter) = false ∧ (c =? Csv.quotechar) = false ∧
   (c =? 13) = false ∧ (c =? 10) = false)%N ∧
  CsvWriter.needs_quotes f = false.
Proof.
  unfold CsvWriter.needs_quotes. cbn [existsb].
  rewrite !orb_false_iff. tauto.
Qed.

(** *** The parser on the characters of a field *)

Lemma step_in_quotes fs f c :
  (c =? Csv.quotechar)%N = false ->
  (N.of_nat (length f) < field_size_limit)%N ->
  Csv.parse_process_char (mk Csv.IN_QUOTED_FIELD fs f) (Some c) =
    inr (mk Csv.IN_QUOTED_FIELD fs (f ++ [c])).
Proof.
  intros Hq Hlt. unfold Csv.parse_process_char. cbn [Csv.state].
  rewrite Hq. by apply add_char_within.
Qed.

Lemma step_quote_in_quotes fs f :
  Csv.parse_process_char (mk Csv.IN_QUOTED_FIELD fs f) (Some Csv.quotechar) =
    inr (mk Csv.QUOTE_IN_QUOTED_FIELD fs f).
Proof. done. Qed.

Lemma step_second_quote fs f :
  (N.of_nat (length f) < field_size_limit)%N ->
  Csv.parse_process_char (mk Csv.QUOTE_IN_QUOTED_FIELD fs f) (Some Csv.quotechar) =
    inr (mk Csv.IN_QUOTED_FIELD fs (f ++ [Csv.quotechar])).
Proof.
  intros Hlt. unfold Csv.parse_process_char. cbn [Csv.state].
  rewrite N.eqb_refl. by rewrite add_char_within.
Qed.

Lemma eol_in_quotes fs f :
  Csv.parse_process_char (mk Csv.IN_QUOTED_FIELD fs f) None =
    inr (mk Csv.IN_QUOTED_FIELD fs f).
Proof. done. Qed.

Lemma line_end_in_quotes fs f k :
  line_end (mk Csv.IN_QUOTED_FIELD fs f) k = k (mk Csv.IN_QUOTED_FIELD fs f).
Proof. done. Qed.

(** The content of a quoted field, up to and with the closing quote:
    the characters are taken as they are, line ends among them too. *)
Lemma read_quoted_content (content : str) : ∀ fs pre p rest,
  (N.of_nat (length (pre ++ content)) <= field_size_limit)%N ->
  records_of_text (mk Csv.IN_QUOTED_FIELD fs pre) p
    (CsvWriter.doubled content ++ Csv.quotechar :: rest) =
  records_of_text (mk Csv.QUOTE_IN_QUOTED_FIELD fs (pre ++ content)) true rest.
Proof.
  induction content as [|c content IH]; intros fs pre p rest Hlen.
  - rewrite app_nil_r. cbn [CsvWriter.doubled flat_map app records_of_text].
    by rewrite step_quote_in_quotes.
  - rewrite length_app in Hlen. cbn [length] in Hlen.
    assert (N.of_nat (length pre) < field_size_limit)%N as Hpre by lia.
    assert (∀ p', records_of_text (mk Csv.IN_QUOTED_FIELD fs (pre ++ [c])) p'
              (CsvWriter.doubled content ++ Csv.quotechar :: rest) =
            records_of_text (mk Csv.QUOTE_IN_QUOTED_FIELD fs (pre ++ c :: content))
              true rest) as IH'.
    { intros p'. rewrite IH by (rewrite !length_app; cbn [length]; lia).
      by rewrite <- (assoc_L (++)). }
    change (CsvWriter.doubled (c :: content)) with
      ((if (c =? Csv.quotechar)%N then [c; c] else [c]) ++ CsvWriter.doubled content).
    destruct (c =? Csv.quotechar)%N eqn:Hq.
    + apply N.eqb_eq in Hq as ->.
      cbn [app records_of_text]. rewrite step_quote_in_quotes.
      change (Csv.quotechar =? 10)%N with false.
      change (Csv.quotechar =? 13)%N with false. cbv iota.
      cbn [records_of_text]. rewrite step_second_quote by done.
      change (Csv.quotechar =? 10)%N with false.
      change (Csv.quotechar =? 13)%N with false. cbv iota.
      apply IH'.
    + cbn [app records_of_text]. rewrite step_in_quotes by done.
      destruct (c =? 10)%N eqn:H10; [rewrite line_end_in_quotes; apply IH'|].
      destruct (c =? 13)%N eqn:H13; [|apply IH'].
      destruct (CsvWriter.doubled content ++ Csv.quotechar :: rest)
        as [|d s''] eqn:Hs.
      { by destruct (CsvWriter.doubled content). }
      destruct (d =? 10)%N eqn:Hd; [|rewrite line_end_in_quotes; apply IH'].
      rewrite <- (IH' true). cbn [records_of_text].
      by rewrite Hd.
Qed.

(** *** A field that is written as it is *)

Lemma step_begin_field st fs c :
  st = Csv.START_RECORD ∨ st = Csv.START_FIELD ->
  ((c =? Csv.delimiter) = false ∧ (c =? Csv.quotechar) = false ∧
   (c =? 13) = false ∧ (c =? 10) = false)%N ->
  (0 < field_size_limit)%N ->
  Csv.parse_process_char (mk st fs []) (Some c) = inr (mk Csv.IN_FIELD fs [c]).
Proof.
  intros Hst (Hd & Hq & H13 & H10) Hlim.
  unfold Csv.parse_process_char, Csv.start_field, Csv.is_newline.
  destruct Hst as [-> | ->]; cbn [Csv.state]; rewrite ?H10, ?H13, ?Hq, ?Hd;
    cbn [orb]; by rewrite (add_char_within _ _ [] c).
Qed.

Lemma step_in_field fs f c :
  ((c =? Csv.delimiter) = false ∧ (c =? Csv.quotechar) = false ∧
   (c =? 13) = false ∧ (c =? 10) = false)%N ->
  (N.of_nat (length f) < field_size_limit)%N ->
  Csv.parse_process_char (mk Csv.IN_FIELD fs f) (Some c) =
    inr (mk Csv.IN_FIELD fs (f ++ [c])).
Proof.
  intros (Hd & Hq & H13 & H10) Hlim.
  unfold Csv.parse_process_char, Csv.is_newline. cbn [Csv.state].
  rewrite H10, H13, Hd. cbn [orb]. by apply add_char_within.
Qed.

(** The rest of a field that has begun. *)
Lemma read_in_field (f : str) : ∀ fs pre p rest,
  CsvWriter.needs_quotes f = false ->
  (N.of_nat (length (pre ++ f)) <= field_size_limit)%N ->
  records_of_text (mk Csv.IN_FIELD fs pre) p (f ++ rest) =
  records_of_text (mk Csv.IN_FIELD fs (pre ++ f))
    (p || bool_decide (f ≠ [])) rest.
Proof.
  induction f as [|c f IH]; intros fs pre p rest Hf Hlen.
  - rewrite app_nil_r, bool_decide_eq_false_2 by (by intros []).
    by rewrite orb_false_r.
  - apply needs_quotes_cons in Hf as [Hc Hf].
    rewrite length_app in Hlen. cbn [length] in Hlen.
    cbn [app records_of_text]. rewrite step_in_field by (done || lia).
    destruct Hc as (_ & _ & -> & ->).
    rewrite IH by (done || rewrite !length_app; cbn [length]; lia).
    rewrite <- (assoc_L (++)). cbn [app orb].
    rewrite bool_decide_eq_true_2 by done. by rewrite orb_true_r.
Qed.

Lemma after_field_delimiter fs f r :
  after_field fs f r ->
  Csv.parse_process_char r (Some Csv.delimiter) =
    inr (mk Csv.START_FIELD (fs ++ [f]) []).
Proof. by intros [->|[->|[-> ->]]]. Qed.

Lemma after_field_return fs f r :
  after_field fs f r ->
  Csv.parse_process_char r (Some 13%N) = inr (mk Csv.EAT_CRNL (fs ++ [f]) []).
Proof. by intros [->|[->|[-> ->]]]. Qed.

(** The end of a record: a carriage return and a line feed after its
    last field. *)
Lemma read_record_end fs f r p rest :
  after_field fs f r ->
  records_of_text r p (13%N :: 10%N :: rest) =
    let '(recs, e) := records_of_text Csv.parse_reset false rest in
    ((fs ++ [f]) :: recs, e).
Proof.
  intros Hr. cbn [records_of_text]. rewrite (after_field_return fs f r Hr).
  by cbn.
Qed.

(** A written field, from the start of a record or of a field on, before
    a delimiter or the end of the record. *)
Lemma read_written_field st fs f p c rest :
  st = Csv.START_RECORD ∨ st = Csv.START_FIELD ->
  (st = Csv.START_RECORD -> CsvWriter.write_field f ≠ []) ->
  (N.of_nat (length f) <= field_size_limit)%N ->
  ∃ r p', after_field fs f r ∧
    records_of_text (mk st fs []) p (CsvWriter.write_field f ++ c :: rest) =
    records_of_text r p' (c :: rest).
Proof.
  intros Hst Hne Hlen. unfold CsvWriter.write_field in *.
  destruct (CsvWriter.needs_quotes f) eqn:Hq.
  - exists (mk Csv.QUOTE_IN_QUOTED_FIELD fs f), true.
    split; [right; by left|].
    unfold CsvWriter.quoted. rewrite <- !(assoc_L (++)).
    cbn [app records_of_text].
    assert (Csv.parse_process_char (mk st fs []) (Some Csv.quotechar) =
            inr (mk Csv.IN_QUOTED_FIELD fs [])) as ->.
    { by destruct Hst as [-> | ->]. }
    change (Csv.quotechar =? 10)%N with false.
    change (Csv.quotechar =? 13)%N with false. cbv iota.
    by rewrite read_quoted_content.
  - destruct f as [|c0 f].
    + destruct Hst as [-> | ->]; [by destruct Hne|].
      exists (mk Csv.START_FIELD fs []), p. split; [right; by right|done].
    + exists (mk Csv.IN_FIELD fs (c0 :: f)), true. split; [by left|].
      apply needs_quotes_cons in Hq as [Hc0 Hf]. cbn [length] in Hlen.
      cbn [app records_of_text].
      rewrite step_begin_field by (auto || lia).
      destruct Hc0 as (_ & _ & -> & ->).
      by rewrite (read_in_field f fs [c0] true) by (done || cbn [app length]; lia).
Qed.

Lemma join_cons (x : str) (l : list str) :
  CsvWriter.join (x :: l) = x ++ concat ((fun g => Csv.delimiter :: g) <$> l).
Proof.
  revert x. induction l as [|y l IH]; intros x; [by rewrite app_nil_r|].
  cbn [CsvWriter.join]. cbn [CsvWriter.join] in IH. rewrite IH. by cbn.
Qed.

(** The fields after a field, each after a delimiter, and the end of the
    record. *)
Lemma read_more_fields (tl : list str) : ∀ fs f r p rest,
  Csv.parse_process_char r (Some Csv.delimiter) =
    inr (mk Csv.START_FIELD (fs ++ [f]) []) ->
  (tl = [] -> after_field fs f r) ->
  Forall (fun g => (N.of_nat (length g) <= field_size_limit)%N) tl ->
  records_of_text r p
    (concat ((fun g => Csv.delimiter :: g) <$> (CsvWriter.write_field <$> tl)) ++
     13%N :: 10%N :: rest) =
    let '(recs, e) := records_of_text Csv.parse_reset false rest in
    ((fs ++ f :: tl) :: recs, e).
Proof.
  induction tl as [|g tl IH]; intros fs f r p rest Hd Hr Hlim.
  - by apply read_record_end, Hr.
  - apply Forall_cons in Hlim as [Hg Hlim].
    cbn [fmap list_fmap concat]. rewrite <- !(assoc_L (++)).
    cbn [app records_of_text]. rewrite Hd.
    change (Csv.delimiter =? 10)%N with false.
    change (Csv.delimiter =? 13)%N with false. cbv iota.
    assert (∃ c rest', (c = Csv.delimiter ∨ c = 13%N) ∧
      concat ((fun g => Csv.delimiter :: g) <$> (CsvWriter.write_field <$> tl)) ++
        13%N :: 10%N :: rest = c :: rest') as (c & rest' & Hc & Hrest).
    { destruct tl as [|g' tl]; cbn; eauto. }
    destruct (read_written_field Csv.START_FIELD (fs ++ [f]) g true c rest')
      as (r' & p' & Hr' & Heq); [by right|done|done|].
    pose proof (IH (fs ++ [f]) g r' p' rest) as IH'.
    rewrite Hrest in *. rewrite Heq, IH'; [|by eapply after_field_delimiter|done..].
    by rewrite <- (assoc_L (++)).
Qed.

(** What the writer wrote for a row is read back as that row, whatever
    the text goes on with. *)
Lemma read_writerow (row : list str) (rest : str) :
  Forall (fun g => (N.of_nat (length g) <= field_size_limit)%N) row ->
  records_of_text Csv.parse_reset false (CsvWriter.writerow row ++ rest) =
    let '(recs, e) := records_of_text Csv.parse_reset false rest in
    (row :: recs, e).
Proof.
  intros Hlim.
  destruct row as [|f tl]; [done|].
  destruct (decide (f = [] ∧ tl = [])) as [[-> ->]|Hne]; [done|].
  assert (CsvWriter.writerow (f :: tl) =
          CsvWriter.join (CsvWriter.write_field <$> (f :: tl)) ++ [13; 10]%N) as ->.
  { destruct f; [|done]. destruct tl; [by destruct Hne|done]. }
  apply Forall_cons in Hlim as [Hf Hlim].
  rewrite fmap_cons, join_cons, <- !(assoc_L (++)).
  change ([13%N; 10%N] ++ rest) with (13%N :: 10%N :: rest).
  destruct (CsvWriter.write_field f) as [|c0 w] eqn:Hw.
  - assert (f = []) as ->.
    { unfold CsvWriter.write_field in Hw.
      destruct (CsvWriter.needs_quotes f); [done|exact Hw]. }
    destruct tl as [|g tl]; [by destruct Hne|].
    cbn [app]. by rewrite (read_more_fields (g :: tl) [] [] Csv.parse_reset).
  - assert (∃ c rest', (c = Csv.delimiter ∨ c = 13%N) ∧
      concat ((fun g => Csv.delimiter :: g) <$> (CsvWriter.write_field <$> tl)) ++
        13%N :: 10%N :: rest = c :: rest') as (c & rest' & Hc & Hrest).
    { destruct tl as [|g' tl]; cbn; eauto. }
    destruct (read_written_field Csv.START_RECORD [] f false c rest')
      as (r' & p' & Hr' & Heq); [by left|by rewrite Hw|done|].
    pose proof (read_more_fields tl [] f r' p' rest) as Hmore.
    rewrite Hrest in *. change Csv.parse_reset with (mk Csv.START_RECORD [] []).
    rewrite <- Hw, Heq. apply Hmore; [by eapply after_field_delimiter|done..].
Qed.

(** Reading back what [csv.writer] wrote: the lines of the text that
    the writer made of any rows, read by [csv.reader], are these rows
    again, field by field, commas, quotes and line ends inside the
    fields included, as long as no field is longer than the field size
    limit of the reader. *)
Lemma read_written_rows (rows : list (list str)) :
  Forall (Forall (fun g => (N.of_nat (length g) <= field_size_limit)%N)) rows ->
  Csv.reader (text_lines (flat_map CsvWriter.writerow rows)) = (rows, None).
Proof.
  intros Hlim. rewrite reader_text_lines.
  induction Hlim as [|row rows Hrow Hrows IH]; [done|].
  cbn [flat_map]. rewrite read_writerow by done. by rewrite IH.
Qed.

End WriterRead.

(** ** The export, read back and imported again *)

Section ExportImport.
Context {rt : Runtime} {env : Env}.

Lemma export_rows_eq (con : Sqlite.Connection) :
  export_rows con =
    [lit "name"; lit "email"; lit "age"; lit "created_at"] ::
    ((fun c => [Sqlite.name c; Sqlite.email c; str_int (Sqlite.age c);
                Sqlite.created_at c]) <$>
     Sqlite.order_by_id (Sqlite.customers con)).
Proof.
  unfold export_rows, Sqlite.select_all. by rewrite <- list_fmap_compose.
Qed.

Lemma export_rows_fit (con : Sqlite.Connection) :
  (10 <= field_size_limit)%N ->
  (∀ c, c ∈ Sqlite.customers con ->
     (N.of_nat (length (Sqlite.name c)) <= field_size_limit)%N ∧
     (N.of_nat (length (Sqlite.email c)) <= field_size_limit)%N ∧
     (N.of_nat (length (str_int (Sqlite.age c))) <= field_size_limit)%N ∧
     (N.of_nat (length (Sqlite.created_at c)) <= field_size_limit)%N) ->
  Forall (Forall (fun g => (N.of_nat (length g) <= field_size_limit)%N))
         (export_rows con).
Proof.
  intros Hlim Hfit. rewrite export_rows_eq. constructor.
  - repeat constructor; cbn; lia.
  - apply Forall_fmap, Forall_forall. intros c Hc%elem_of_order_by_id.
    destruct (Hfit c Hc) as (? & ? & ? & ?). cbn. by repeat constructor.
Qed.

(** X9. The file of [export], read by [csv.reader] as the import reads
    a file, gives the header name, email, age, created_at and then the
    records of the table by id, each value as it is in the table, with
    the commas, quotes and line ends that it may hold: nothing is lost or
    split by the way the file is written. The values must be within the
    field size limit of the reader. *)
Theorem export_read_back (con : Sqlite.Connection) :
  (10 <= field_size_limit)%N ->
  (∀ c, c ∈ Sqlite.customers con ->
     (N.of_nat (length (Sqlite.name c)) <= field_size_limit)%N ∧
     (N.of_nat (length (Sqlite.email c)) <= field_size_limit)%N ∧
     (N.of_nat (length (str_int (Sqlite.age c))) <= field_size_limit)%N ∧
     (N.of_nat (length (Sqlite.created_at c)) <= field_size_limit)%N) ->
  Csv.reader (text_lines (export_text con)) = (export_rows con, None).
Proof.
  intros Hlim Hfit. apply read_written_rows. by apply export_rows_fit.
Qed.

Lemma str_int_small (a : Z) :
  1 <= a <= 120 ->
  (length (str_int a) <= 3)%nat ∧ int (strip (str_int a)) = Some a.
Proof.
  intros Ha.
  assert (Forall (fun a => (length (str_int a) <= 3)%nat ∧
                           int (strip (str_int a)) = Some a) (seqZ 1 120)) as Hall.
  { apply Forall_forall. intros x Hx.
    assert (forallb (fun a => bool_decide ((length (str_int a) <= 3)%nat) &&
                      bool_decide (int (strip (str_int a)) = Some a)) (seqZ 1 120) = true) as Hb.
    { by vm_compute. }
    rewrite forallb_forall in Hb. apply list_elem_of_In, Hb in Hx.
    apply andb_prop in Hx as [H1%bool_decide_eq_true H2%bool_decide_eq_true]. done. }
  rewrite Forall_forall in Hall. apply Hall. apply elem_of_seqZ. lia.
Qed.

Lemma header_of_export_ok :
  header_ok [lit "name"; lit "email"; lit "age"; lit "created_at"] = true.
Proof.
  apply header_ok_iff. intros k Hk. exists k. split.
  - rewrite !elem_of_cons in *. tauto.
  - rewrite !elem_of_cons, elem_of_nil in Hk.
    by destruct Hk as [->|[->|[->|[]]]].
Qed.


Lemma exported_row_checks (c : Sqlite.customer) :
  strip (Sqlite.name c) = Sqlite.name c ->
  (2 <= length (Sqlite.name c))%nat ->
  lower (strip (Sqlite.email c)) = Sqlite.email c ->
  EMAIL_RE_match (Sqlite.email c) = true ->
  1 <= Sqlite.age c <= 120 ->
  check_row (Csv.make_row [lit "name"; lit "email"; lit "age"; lit "created_at"]
               [Sqlite.name c; Sqlite.email c; str_int (Sqlite.age c);
                Sqlite.created_at c]) =
    Accepted (Sqlite.name c) (Sqlite.email c) (Sqlite.age c).
Proof.
  intros Hn Hlen He Hm Ha. unfold check_row, get_or_empty.
  rewrite (make_row_lookup [] [lit "email"; lit "age"; lit "created_at"]).
  2:{ rewrite !elem_of_cons, elem_of_nil. by intros [|[|[|[]]]]. }
  rewrite (make_row_lookup [lit "name"] [lit "age"; lit "created_at"]).
  2:{ rewrite !elem_of_cons, elem_of_nil. by intros [|[|[]]]. }
  rewrite (make_row_lookup [lit "name"; lit "email"] [lit "created_at"]).
  2:{ rewrite !elem_of_cons, elem_of_nil. by intros [|[]]. }
  cbn [length lookup list_lookup].
  rewrite Hn, He, Hm, (proj2 (str_int_small _ Ha)). cbn [negb].
  rewrite bool_decide_eq_false_2 by lia.
  by rewrite bool_decide_eq_false_2 by lia.
Qed.

(** Rows that pass the checks with emails that are new and different
    from each other are all inserted, in their order. *)
Lemma loop_all_new (rowf : Sqlite.customer -> gmap str (option str))
    (cs : list Sqlite.customer) :
  (∀ j, store_fault j = false) ->
  ∀ i ok errs con,
    (∀ c, c ∈ cs -> check_row (rowf c) =
                      Accepted (Sqlite.name c) (Sqlite.email c) (Sqlite.age c)) ->
    NoDup (Sqlite.email <$> cs) ->
    (∀ c, c ∈ cs -> Sqlite.email c ∉ emails con) ->
    ∃ con',
      loop (rowf <$> cs) i (ok, errs, con) =
        inr (ok + Z.of_nat (length cs), errs, con') ∧
      (fun c => (Sqlite.name c, Sqlite.email c, Sqlite.age c)) <$>
        Sqlite.customers con' =
      ((fun c => (Sqlite.name c, Sqlite.email c, Sqlite.age c)) <$>
         Sqlite.customers con) ++
      ((fun c => (Sqlite.name c, Sqlite.email c, Sqlite.age c)) <$> cs).
Proof.
  intros Hf. induction cs as [|c cs IH]; intros i ok errs con Hch Hnd Hnew.
  - exists con. cbn. split; [by rewrite Z.add_0_r|by rewrite app_nil_r].
  - cbn [fmap list_fmap loop].
    rewrite fmap_cons in Hnd. apply NoDup_cons in Hnd as [Hc Hnd].
    rewrite (loop_body_inserted i (rowf c) _ _ _ ok errs con
               (Hch c (list_elem_of_here _ _)) (Hf i)
               (Hnew c (list_elem_of_here _ _))).
    match goal with
    | |- context [loop _ _ (_, _, ?c1)] =>
        destruct (IH (i + 1) (ok + 1) errs c1) as (con' & Hl & Hcu); [|exact Hnd| |]
    end.
    + intros d Hd. apply Hch. by apply list_elem_of_further.
    + intros d Hd. unfold emails. cbn [Sqlite.customers].
      rewrite fmap_app. cbn. rewrite elem_of_app, list_elem_of_singleton.
      intros [Hin|Heq].
      * by apply (Hnew d (list_elem_of_further _ _ _ Hd)).
      * apply Hc. rewrite <- Heq. by apply list_elem_of_fmap_2.
    + exists con'. split.
      * rewrite Hl. do 3 f_equal. cbn [length]. lia.
      * rewrite Hcu. cbn [Sqlite.customers]. rewrite fmap_app. cbn.
        by rewrite <- (assoc_L (++)).
Qed.

(** X10. A table that is exported and imported again is restored: when
    the records of a table are as the import makes them (a name of at
    least 2 characters with no whitespace around it, an email in lower
    case that [EMAIL_RE] matches, an age from 1 to 120), with emails that
    are different from each other and not in the target table, the import
    of the file of [export] inserts every record, reports no error, and
    adds the names, emails and ages to the target table in the order of
    the ids; the ids and the times of creation are new. *)
Theorem export_then_import (con db : Sqlite.Connection) :
  (10 <= field_size_limit)%N ->
  (∀ j, store_fault j = false) ->
  NoDup (emails con) ->
  (∀ c, c ∈ Sqlite.customers con ->
     (N.of_nat (length (Sqlite.name c)) <= field_size_limit)%N ∧
     (N.of_nat (length (Sqlite.email c)) <= field_size_limit)%N ∧
     (N.of_nat (length (Sqlite.created_at c)) <= field_size_limit)%N ∧
     strip (Sqlite.name c) = Sqlite.name c ∧
     (2 <= length (Sqlite.name c))%nat ∧
     lower (strip (Sqlite.email c)) = Sqlite.email c ∧
     EMAIL_RE_match (Sqlite.email c) = true ∧
     1 <= Sqlite.age c <= 120 ∧
     Sqlite.email c ∉ emails db) ->
  ∃ db',
    ingest (export_text con) db =
      (inr (Z.of_nat (length (Sqlite.customers con)), []), db') ∧
    (fun c => (Sqlite.name c, Sqlite.email c, Sqlite.age c)) <$>
      Sqlite.customers db' =
    ((fun c => (Sqlite.name c, Sqlite.email c, Sqlite.age c)) <$>
       Sqlite.customers db) ++
    ((fun c => (Sqlite.name c, Sqlite.email c, Sqlite.age c)) <$>
       Sqlite.order_by_id (Sqlite.customers con)).
Proof.
  intros Hlim Hf Hnd Hall.
  assert (Csv.reader (text_lines (export_text con)) = (export_rows con, None))
    as Hread.
  { apply read_written_rows, export_rows_fit; [done|].
    intros c Hc. destruct (Hall c Hc) as (? & ? & ? & _ & _ & _ & _ & Ha & _).
    repeat split; try done.
    pose proof (proj1 (str_int_small _ Ha)). lia. }
  set (rowf := fun c : Sqlite.customer =>
    Csv.make_row [lit "name"; lit "email"; lit "age"; lit "created_at"]
      [Sqlite.name c; Sqlite.email c; str_int (Sqlite.age c); Sqlite.created_at c]).
  assert (data_rows (text_lines (export_text con)) =
          rowf <$> Sqlite.order_by_id (Sqlite.customers con)) as Hrows.
  { unfold data_rows, Csv.dict_rows. rewrite Hread, export_rows_eq.
    cbn [fst head tail default].
    induction (Sqlite.order_by_id (Sqlite.customers con)) as [|c l IH];
      [done|].
    rewrite !fmap_cons, filter_cons_True by done. rewrite fmap_cons.
    by rewrite IH. }
  destruct (loop_all_new rowf (Sqlite.order_by_id (Sqlite.customers con)) Hf
              2 0 [] db) as (db' & Hl & Hcu).
  - intros c Hc%elem_of_order_by_id.
    destruct (Hall c Hc) as (_ & _ & _ & ? & ? & ? & ? & ? & _).
    by apply exported_row_checks.
  - unfold emails in Hnd. by rewrite order_by_id_perm.
  - intros c Hc%elem_of_order_by_id. by apply Hall.
  - exists db'. split; [|done]. unfold ingest. apply import_of_loop.
    + rewrite Hread. apply header_of_export_ok.
    + by rewrite Hread.
    + rewrite Hrows, Hl. do 3 f_equal.
      rewrite Z.add_0_l. by rewrite order_by_id_perm.
Qed.

End ExportImport.

(** ** The routes *)

Section Routes.
Context {rt : Runtime}.

Lemma run_nothing_added {env : Env} i rows con errs con' :
  run i rows con errs [] con' -> con' = con.
Proof.
  intros Hrun. remember [] as added eqn:Ha.
  induction Hrun; try done; by apply IHHrun.
Qed.

(** What an import does to the table, whatever it returns or raises. *)
Lemma import_effect {env : Env} text_stream db res db' :
  import_csv_stream text_stream db = (res, db') ->
  ∃ added,
    Sqlite.customers db' = Sqlite.customers db ++ added ∧
    (added = [] -> db' = db) ∧
    (NoDup (emails db) -> NoDup (emails db')) ∧
    (NoDup (Sqlite.id <$> Sqlite.customers db) ->
     NoDup (Sqlite.id <$> Sqlite.customers db')) ∧
    match res with
    | inl _ => added = []
    | inr (ok, errors) =>
        ok = Z.of_nat (length added) ∧
        (length errors + length added = length (data_rows text_stream))%nat ∧
        columns <$> added =
          omap (inserted_record errors) (enumerate 2 (data_rows text_stream)) ∧
        Sqlite.order_by_id (Sqlite.customers db') =
          Sqlite.order_by_id (Sqlite.customers db) ++ added
    end.
Proof.
  destruct res as [x|[ok errors]].
  - intros ->%import_raised. exists []. by rewrite app_nil_r.
  - intros (_ & _ & Hl)%import_returned.
    apply loop_run in Hl as (new & added & Hrun & Hnew & Hok).
    cbn in Hnew. subst new. exists added.
    pose proof (run_customers _ _ _ _ _ _ Hrun) as Hcu.
    pose proof (run_added_emails _ _ _ _ _ _ Hrun) as [Hnd Hfresh].
    pose proof (run_ids _ _ _ _ _ _ Hrun) as [Hids Hsorted].
    split; [done|]. split.
    { intros ->. by eapply run_nothing_added. }
    unfold emails. rewrite Hcu, !fmap_app. split; [|split; [|split_and!]].
    + intros Hdb. apply NoDup_app. split; [done|]. split; [|done].
      intros e He (c & -> & Hc)%list_elem_of_fmap. by apply (Hfresh c Hc).
    + intros Hdb. apply NoDup_app. split; [done|]. split.
      * intros y (d & -> & Hd)%list_elem_of_fmap (c & Heq & Hc)%list_elem_of_fmap.
        rewrite Forall_forall in Hids. specialize (Hids c Hc d Hd). lia.
      * clear -Hsorted. induction Hsorted as [|c added Hs IH Hlt]; [constructor|].
        rewrite fmap_cons. constructor; [|done].
        intros (d & Heq & Hd)%list_elem_of_fmap.
        rewrite Forall_forall in Hlt. specialize (Hlt d Hd). lia.
    + lia.
    + by eapply run_counts.
    + by eapply run_added.
    + by apply order_by_id_app.
Qed.

Lemma without_id_recent (con : Sqlite.Connection) :
  without_id <$> select_recent con =
    take 50 (reverse (Sqlite.select_all con)).
Proof.
  unfold select_recent, Sqlite.select_all.
  rewrite fmap_take, <- list_fmap_compose, fmap_reverse. done.
Qed.

Section Upload.
Context {env : Env}.


(** X12. The page that answers an upload: the file had a name ending in
    .csv in any case of the letters and its import returned; the summary
    holds the count of the inserted rows and the number of the errors,
    which together are the number of the data rows; and the listing
    shows the records that the upload inserted first, the last row of
    the file on top, then the records that were there before, the newest
    first, 50 rows at most. *)
Theorem upload_page file db rows summary errors db' :
  upload file db = (inr (Page rows summary errors), db') ->
  ∃ filename text ok errs,
    file = Some (filename, text) ∧
    endswith (lower filename) (lit ".csv") = true ∧
    ingest text db = (inr (ok, errs), db') ∧
    summary = Some (ok, Z.of_nat (length errs)) ∧ errors = Some errs ∧
    ok + Z.of_nat (length errs) =
      Z.of_nat (length (data_rows (text_lines text))) ∧
    without_id <$> rows =
      take 50 (reverse (omap (inserted_record errs)
                          (enumerate 2 (data_rows (text_lines text)))) ++
               reverse (Sqlite.select_all db)).
Proof.
  unfold upload. intros Hu.
  destruct file as [[filename text]|]; [|done].
  destruct (endswith _ _) eqn:Hext; [|done]. cbn [negb] in Hu.
  destruct (import_csv_stream _ _) as [[x|[ok errs]] db1] eqn:Hi.
  { by destruct x. }
  simplify_eq. exists filename, text, ok, errs.
  destruct (import_effect _ _ _ _ Hi) as (added & Hcu & _ & _ & _ & Hok & Hlen & Hadd & Hord).
  split_and!; try done.
  - lia.
  - rewrite without_id_recent. unfold Sqlite.select_all.
    rewrite Hord, fmap_app, reverse_app. by rewrite <- Hadd.
Qed.

End Upload.

Section ObsEventProps.
Context {store : Store}.

Lemma sum_list_app (l1 l2 : list Z) :
  sum_list (l1 ++ l2) = sum_list l1 + sum_list l2.
Proof. unfold sum_list. induction l1 as [|x l1 IH]; cbn; [done|]. rewrite IH. lia. Qed.

(** What the body of the loop does: at most one entry more in the
    details, its counts added to the totals, and the records that it
    inserted added to the table. *)
Lemma obs_record_effect k rec ok errs items db ok' errs' items' db' :
  obs_record k rec (ok, errs, items, db) = inr (ok', errs', items', db') ->
  ∃ new added,
    items' = items ++ new ∧ (length new <= 1)%nat ∧
    ok' = ok + sum_list (inserted_of <$> new) ∧
    errs' = errs + sum_list (errors_of <$> new) ∧
    Sqlite.customers db' = Sqlite.customers db ++ added ∧
    Z.of_nat (length added) = sum_list (inserted_of <$> new) ∧
    (added = [] -> db' = db) ∧
    (NoDup (emails db) -> NoDup (emails db')).
Proof.
  unfold obs_record.
  destruct (s3_name rec _ _) as [|bucket]; [done|].
  destruct (s3_name rec _ _) as [|obj]; [done|].
  destruct (negb (truthy bucket) || negb (truthy obj)).
  { intros [= <- <- <- <-]. exists [], []. rewrite !app_nil_r. cbn.
    split_and!; try done; lia. }
  destruct obj as [| | |key| |]; try done.
  destruct (negb _).
  { intros [= <- <- <- <-]. exists [Skipped bucket key], [].
    rewrite !app_nil_r. cbn. split_and!; try done; lia. }
  destruct (get_object bucket key) as [text|].
  2:{ intros [= <- <- <- <-]. exists [Failed bucket key], [].
      rewrite !app_nil_r. cbn. split_and!; try done; lia. }
  destruct (import_csv_stream _ _) as [[x|[n errors]] db1] eqn:Hi.
  - apply import_raised in Hi as ->.
    intros [= <- <- <- <-]. exists [Failed bucket key], [].
    rewrite !app_nil_r. cbn. split_and!; try done; lia.
  - intros [= <- <- <- <-].
    destruct (import_effect _ _ _ _ Hi) as (added & Hcu & Hsame & Hnd & _ & -> & _).
    exists [Imported bucket key (Z.of_nat (length added)) (Z.of_nat (length errors))],
           added.
    cbn. split_and!; try done; lia.
Qed.

Lemma obs_loop_effect records : ∀ k ok errs items db res db',
  obs_loop records k (ok, errs, items, db) = (res, db') ->
  ∃ added,
    Sqlite.customers db' = Sqlite.customers db ++ added ∧
    (added = [] -> db' = db) ∧
    (NoDup (emails db) -> NoDup (emails db')) ∧
    ∀ ok' errs' items', res = inr (ok', errs', items') ->
      ∃ new, items' = items ++ new ∧ (length new <= length records)%nat ∧
        ok' = ok + sum_list (inserted_of <$> new) ∧
        errs' = errs + sum_list (errors_of <$> new) ∧
        Z.of_nat (length added) = sum_list (inserted_of <$> new).
Proof.
  induction records as [|rec records IH]; intros k ok errs items db res db'.
  - cbn. intros [= <- <-]. exists []. rewrite app_nil_r. split_and!; try done.
    intros ok' errs' items' [= <- <- <-]. exists []. rewrite app_nil_r. cbn.
    split_and!; try done; lia.
  - cbn [obs_loop].
    destruct (obs_record k rec _) as [x|[[[ok1 errs1] items1] db1]] eqn:Hr.
    { cbn. intros [= <- <-]. exists []. rewrite app_nil_r. by split_and!. }
    apply obs_record_effect in Hr
      as (new1 & added1 & -> & Hlen1 & -> & -> & Hcu1 & Hn1 & Hsame1 & Hnd1).
    intros (added2 & Hcu2 & Hsame2 & Hnd2 & Hres)%IH.
    exists (added1 ++ added2). split_and!.
    + by rewrite Hcu2, Hcu1, <- (assoc_L (++)).
    + intros [-> ->]%app_eq_nil. by rewrite Hsame2, Hsame1.
    + auto.
    + intros ok' errs' items' Hr.
      destruct (Hres _ _ _ Hr) as (new2 & -> & Hlen2 & -> & -> & Hn2).
      exists (new1 ++ new2).
      rewrite !fmap_app, !sum_list_app, !length_app, <- (assoc_L (++)). cbn [length].
      split_and!; try done; lia.
Qed.

(** X13. What [obs_event] does to the table and what it reports:
    whatever the payload, and whether the route returns or raises, the
    records of the table stay, unchanged and in their places, followed
    by the new ones, with no email twice if there was none before; when
    it returns, the total of inserted rows is the sum over the imported
    files and the number of the records added to the table, and the total
    of errors is the sum of their errors. *)
Theorem obs_event_accounts body db res db' :
  obs_event body db = (res, db') ->
  ∃ added,
    Sqlite.customers db' = Sqlite.customers db ++ added ∧
    (added = [] -> db' = db) ∧
    (NoDup (emails db) -> NoDup (emails db')) ∧
    ∀ ok errs items, res = inr (ok, errs, items) ->
      ok = sum_list (inserted_of <$> items) ∧
      errs = sum_list (errors_of <$> items) ∧
      ok = Z.of_nat (length added).
Proof.
  unfold obs_event.
  assert (∀ x, (inl x : route_error + (Z * Z * list item), db) = (res, db') ->
    ∃ added,
      Sqlite.customers db' = Sqlite.customers db ++ added ∧
      (added = [] -> db' = db) ∧
      (NoDup (emails db) -> NoDup (emails db')) ∧
      ∀ ok errs items, res = inr (ok, errs, items) ->
        ok = sum_list (inserted_of <$> items) ∧
        errs = sum_list (errors_of <$> items) ∧
        ok = Z.of_nat (length added)) as Hraise.
  { intros x [= <- <-]. exists []. rewrite app_nil_r. by split_and!. }
  destruct (dict_get _ _) as [|r]; [apply Hraise|].
  destruct (or_else r (JList [])) as [| | | |records|]; try apply Hraise.
  intros (added & Hcu & Hsame & Hnd & Hres)%obs_loop_effect.
  exists added. split_and!; try done.
  intros ok errs items Hr.
  destruct (Hres _ _ _ Hr) as (new & -> & _ & -> & -> & Hn).
  rewrite app_nil_l. split_and!; lia.
Qed.

Lemma s3_name_event (b key : str) :
  s3_name (event_record b key) (lit "bucket") (lit "name") = inr (JStr b) ∧
  s3_name (event_record b key) (lit "object") (lit "key") = inr (JStr key).
Proof. split; [by destruct b|by destruct key]. Qed.

Lemma obs_record_event k b key ok errs items db :
  ∃ ok' errs' new db',
    obs_record k (event_record b key) (ok, errs, items, db) =
      inr (ok', errs', items ++ new, db') ∧
    item_object <$> new =
      (fun bk => (JStr bk.1, bk.2)) <$> filter (fun bk => Is_true (named bk)) [(b, key)] ∧
    Forall item_kind_ok new.
Proof.
  unfold obs_record.
  destruct (s3_name_event b key) as [-> ->].
  destruct b as [|c b].
  { exists ok, errs, [], db. by rewrite app_nil_r. }
  destruct key as [|d key].
  { exists ok, errs, [], db. by rewrite app_nil_r. }
  cbn [truthy negb orb].
  destruct (endswith _ _) eqn:Hext; cbn [negb].
  2:{ exists ok, errs, [Skipped (JStr (c :: b)) (d :: key)], db.
      split; [done|]. split; [done|]. by repeat constructor. }
  destruct (get_object _ _) as [text|].
  2:{ exists ok, errs, [Failed (JStr (c :: b)) (d :: key)], db.
      split; [done|]. split; [done|]. by repeat constructor. }
  destruct (import_csv_stream _ _) as [[x|[n errors]] db1].
  - exists ok, errs, [Failed (JStr (c :: b)) (d :: key)], db1.
    split; [done|]. split; [done|]. by repeat constructor.
  - eexists _, _, [Imported (JStr (c :: b)) (d :: key) _ _], db1.
    split; [done|]. split; [done|]. by repeat constructor.
Qed.

Lemma obs_loop_events (objects : list (str * str)) : ∀ k ok errs items db,
  ∃ ok' errs' new db',
    obs_loop ((fun bk => event_record bk.1 bk.2) <$> objects) k
             (ok, errs, items, db) = (inr (ok', errs', items ++ new), db') ∧
    item_object <$> new =
      (fun bk => (JStr bk.1, bk.2)) <$> filter (fun bk => Is_true (named bk)) objects ∧
    Forall item_kind_ok new.
Proof.
  induction objects as [|[b key] objects IH]; intros k ok errs items db.
  - exists ok, errs, [], db. by rewrite app_nil_r.
  - cbn [fmap list_fmap obs_loop fst snd].
    destruct (obs_record_event k b key ok errs items db)
      as (ok1 & errs1 & new1 & db1 & -> & Hobj1 & Hkind1).
    destruct (IH (S k) ok1 errs1 (items ++ new1) db1)
      as (ok2 & errs2 & new2 & db2 & -> & Hobj2 & Hkind2).
    exists ok2, errs2, (new1 ++ new2), db2.
    split; [by rewrite <- (assoc_L (++))|]. split.
    + rewrite fmap_app, Hobj1, Hobj2, <- fmap_app. f_equal.
      change ((b, key) :: objects) with ([(b, key)] ++ objects).
      by rewrite filter_app.
    + by apply Forall_app.
Qed.

(** X14. On a payload of bucket notifications [obs_event] does not
    raise, whatever the object store and the database do: it returns,
    with one entry in the details for each record that names a bucket
    and an object, in the order of the records; the entry is a skipped
    one exactly when the name of the object does not end in .csv. *)
Theorem obs_event_one_item_per_object (objects : list (str * str)) db :
  ∃ ok errs items db',
    obs_event (Some (event objects)) db = (inr (ok, errs, items), db') ∧
    item_object <$> items =
      (fun bk => (JStr bk.1, bk.2)) <$> filter (fun bk => Is_true (named bk)) objects ∧
    Forall item_kind_ok items.
Proof.
  destruct (obs_loop_events objects 0%nat 0 0 [] db)
    as (ok & errs & new & db' & Hl & Hobj & Hkind).
  exists ok, errs, new, db'. split; [|done].
  unfold obs_event, event. cbn [default truthy or_else].
  destruct objects as [|bk objects]; [by injection Hl as <- <- <- <-|].
  exact Hl.
Qed.

End ObsEventProps.

End Routes.

(** ** Line ends *)

Section LineEnds.
Context {rt : Runtime}.

Lemma step_unquoted r c r' :
  unquoted r -> c ≠ Csv.quotechar ->
  Csv.parse_process_char r (Some c) = inr r' -> unquoted r'.
Proof.
  intros [H1 H2] Hc%N.eqb_neq. destruct r as [st fs f].
  unfold Csv.parse_process_char, Csv.start_field, Csv.parse_add_char,
    Csv.then_state, unquoted.
  cbn [Csv.state Csv.fields Csv.field] in *. rewrite ?Hc.
  destruct st; try done; destruct (Csv.is_newline c);
    try destruct (c =? Csv.delimiter)%N;
    try destruct (field_size_limit <=? _)%N;
    intros ?; by simplify_eq.
Qed.

(** A line feed, and a carriage return followed by a line feed, leave
    the parser in the same state after an unquoted field. *)
Lemma step_line_end r :
  unquoted r ->
  ∃ r1, Csv.parse_process_char r (Some 10%N) = inr r1 ∧
        Csv.parse_process_char r (Some 13%N) = inr r1 ∧
        Csv.parse_process_char r1 (Some 10%N) = inr r1 ∧
        Csv.parse_process_char r1 None = inr (Csv.set_state Csv.START_RECORD r1).
Proof.
  intros [H1 H2]. destruct r as [st fs f]. cbn in H1, H2.
  destruct st; try done; eexists; by split_and!.
Qed.

Lemma crlf_records (s : str) : ∀ r p,
  unquoted r ->
  Forall (fun c => c ≠ Csv.quotechar ∧ c ≠ 13%N) s ->
  records_of_text r p (crlf s) = records_of_text r p s.
Proof.
  induction s as [|c s IH]; intros r p Hr Hs; [done|].
  apply Forall_cons in Hs as [[Hq Hcr] Hs].
  destruct (decide (c = 10%N)) as [->|Hlf].
  - destruct (step_line_end r Hr) as (r1 & E1 & E2 & E3 & E4).
    change (crlf (10%N :: s)) with (13%N :: 10%N :: crlf s).
    cbn [records_of_text]. rewrite E1, E2. cbn [N.eqb Pos.eqb]. rewrite E3.
    unfold line_end. rewrite E4. cbn [Csv.set_state Csv.state].
    rewrite bool_decide_eq_true_2 by done.
    by rewrite IH.
  - assert (crlf (c :: s) = c :: crlf s) as ->.
    { unfold crlf. cbn [flat_map]. by rewrite (proj2 (N.eqb_neq _ _) Hlf). }
    cbn [records_of_text].
    destruct (Csv.parse_process_char r (Some c)) as [e|r1] eqn:Hp; [done|].
    rewrite (proj2 (N.eqb_neq _ _) Hlf), (proj2 (N.eqb_neq _ _) Hcr).
    apply IH; [by eapply step_unquoted|done].
Qed.

(** X15. The line ends of Windows and of Unix are the same to the
    import: a text with no quoted field and no carriage return, and the
    same text with a carriage return before each line feed, give the
    same result and leave the same database. *)
Theorem line_ends_crlf_or_lf {env : Env} (s : str) (db : Sqlite.Connection) :
  Forall (fun c => c ≠ Csv.quotechar ∧ c ≠ 13%N) s ->
  ingest (crlf s) db = ingest s db.
Proof.
  intros Hs. unfold ingest, import_csv_stream.
  rewrite !reader_text_lines, crlf_records; [done| |done].
  by split.
Qed.

End LineEnds.

(** ** The emails that pass the check *)

Section AcceptedEmail.
Context {rt : Runtime}.

Lemma rstrip_ends (s t : str) (c : N) : rstrip s = t ++ [c] -> isspace c = false.
Proof.
  unfold rstrip. intros H. apply (f_equal reverse) in H.
  rewrite reverse_involutive, reverse_app, reverse_singleton in H.
  by eapply lstrip_starts.
Qed.

Lemma isascii_strip (s : str) : isascii s = true -> isascii (strip s) = true.
Proof.
  unfold strip, isascii. intros H.
  destruct (lstrip_split s) as (ws1 & Hs & _).
  destruct (rstrip_split (lstrip s)) as (ws2 & Hl & _).
  rewrite Hs, forallb_app in H. apply andb_prop in H as [_ H].
  rewrite Hl, forallb_app in H. by apply andb_prop in H as [H _].
Qed.

Lemma ascii_lower_line_feed (c : N) : ascii_lower c = 10%N -> c = 10%N.
Proof.
  unfold ascii_lower. destruct (_ && _) eqn:Hc; [|done].
  apply andb_prop in Hc as [H1%N.leb_le H2]. lia.
Qed.

(** X16. The email of a row that passes the checks, when the value of
    the row is ASCII: it is a local part, one at sign, a domain, a dot
    and a last part, none of them empty, with no whitespace and no other
    at sign anywhere. The line feed that the [$] of [EMAIL_RE] lets
    through at the end is never there, the value being stripped. *)
Theorem accepted_email_shape (r : gmap str (option str)) name email age :
  check_row r = Accepted name email age ->
  isascii (get_or_empty r (lit "email")) = true ->
  ∃ local domain tld,
    email = local ++ [ord "@"] ++ domain ++ [ord "."] ++ tld ∧
    local ≠ [] ∧ domain ≠ [] ∧ tld ≠ [] ∧
    forallb not_at_space (local ++ domain ++ tld) = true.
Proof.
  intros (_ & He & _ & Hm & _)%check_row_accepted Hascii.
  apply EMAIL_RE_shape in Hm
    as (local & domain & tld & nl & Hshape & Hnl & [Hl1 Hl2] & [Hd1 Hd2] & [Ht1 Ht2]).
  exists local, domain, tld.
  assert (nl = []) as ->.
  { destruct Hnl as [->| ->]; [done|]. exfalso.
    apply isascii_strip in Hascii. unfold lower in He. rewrite Hascii in He.
    rewrite He in Hshape.
    destruct (strip (get_or_empty r (lit "email"))) as [|c t _] eqn:Hs using rev_ind.
    - by destruct local.
    - rewrite map_app in Hshape. cbn [map] in Hshape.
      rewrite !(assoc_L (++)) in Hshape.
      apply app_inj_tail in Hshape as [_ ->%ascii_lower_line_feed].
      by apply rstrip_ends in Hs. }
  rewrite app_nil_r in Hshape. split; [done|]. split_and!; try done.
  by rewrite !forallb_app, Hl2, Hd2, Ht2.
Qed.

End AcceptedEmail.

(** ** The lines of a text *)

(** X17. The lines that [upload] and [obs_event] give the import are
    the text of the file, cut and nothing else: put together they are
    the text again, each is a run of characters that are no line ends
    followed by a line feed, a carriage return, a carriage return and a
    line feed, or nothing, and none is empty. No line end is translated
    or dropped before the reader sees it. *)
Theorem text_lines_cut (s : str) :
  concat (text_lines s) = s ∧
  Forall (fun l => ∃ body e, l = body ++ e ∧ (body ≠ [] ∨ e ≠ []) ∧
            Forall (fun c => c ≠ 10%N ∧ c ≠ 13%N) body ∧
            e ∈ [[]; [10%N]; [13%N]; [13%N; 10%N]]) (text_lines s).
Proof.
  assert (∀ cur,
    Forall (fun c => c ≠ 10%N ∧ c ≠ 13%N) cur ->
    concat (lines_from cur s) = cur ++ s ∧
    Forall (fun l => ∃ body e, l = body ++ e ∧ (body ≠ [] ∨ e ≠ []) ∧
              Forall (fun c => c ≠ 10%N ∧ c ≠ 13%N) body ∧
              e ∈ [[]; [10%N]; [13%N]; [13%N; 10%N]]) (lines_from cur s)) as Hcut.
  { induction s as [s H] using (induction_ltof1 _ (@length N)); unfold ltof in H.
    intros cur Hcur. destruct s as [|c s].
    { destruct cur as [|a cur]; cbn; [done|]. rewrite !app_nil_r. split; [done|].
      constructor; [|done]. exists (a :: cur), []. rewrite app_nil_r.
      split_and!; [done|by left|done|by repeat constructor]. }
    cbn [lines_from]. destruct (N.eqb_spec c 10) as [->|Hlf].
    { destruct (H s ltac:(cbn; lia) [] ltac:(done)) as [Hc Hl].
      cbn [concat]. rewrite Hc, <- (assoc_L (++)). split; [done|].
      constructor; [|done]. exists cur, [10%N].
      split_and!; [done|by right|done|by repeat constructor]. }
    destruct (N.eqb_spec c 13) as [->|Hcr].
    - destruct s as [|d s].
      { cbn. rewrite app_nil_r. split; [done|]. constructor; [|done].
        exists cur, [13%N]. split_and!; [done|by right|done|by repeat constructor]. }
      destruct (N.eqb_spec d 10) as [->|Hd].
      + destruct (H s ltac:(cbn; lia) [] ltac:(done)) as [Hc Hl].
        cbn [concat]. rewrite Hc, <- (assoc_L (++)). split; [done|].
        constructor; [|done]. exists cur, [13%N; 10%N].
        split_and!; [done|by right|done|by repeat constructor].
      + destruct (H (d :: s) ltac:(cbn; lia) [] ltac:(done)) as [Hc Hl].
        cbn [concat]. rewrite Hc, <- (assoc_L (++)). split; [done|].
        constructor; [|done]. exists cur, [13%N].
        split_and!; [done|by right|done|by repeat constructor].
    - destruct (H s ltac:(cbn; lia) (cur ++ [c])) as [Hc Hl].
      { apply Forall_app. split; [done|]. by repeat constructor. }
      rewrite Hc, <- (assoc_L (++)). by split. }
  by apply (Hcut []).
Qed.

(** ** Instances of the properties above *)

Lemma export_read_back_witness :
  Csv.reader (rt := plain) (text_lines (export_text two_customers)) =
    (export_rows two_customers, None).
Proof.
  apply (export_read_back (rt := plain) two_customers); [by vm_compute|].
  intros c Hc. change (c ∈ [alice; bob]) in Hc.
  rewrite !elem_of_cons, elem_of_nil in Hc.
  destruct Hc as [->|[->|[]]]; by vm_compute.
Defined.

Lemma export_then_import_witness :
  ∃ db',
    ingest (rt := plain) (env := steady) (export_text two_customers) empty_db =
      (inr (2, []), db') ∧
    (fun c => (Sqlite.name c, Sqlite.email c, Sqlite.age c)) <$>
      Sqlite.customers db' =
    [(lit "Alice", lit "alice@example.com", 30);
     (lit "Bob, Jr", lit "bob@example.org", 25)].
Proof.
  apply (export_then_import (rt := plain) (env := steady) two_customers empty_db);
    [by vm_compute|done| |].
  - apply (bool_decide_unpack (NoDup (emails two_customers))). by vm_compute.
  - intros c Hc. change (c ∈ [alice; bob]) in Hc.
    rewrite !elem_of_cons, elem_of_nil in Hc.
    destruct Hc as [->|[->|[]]]; split_and!;
      first [by vm_compute | vm_compute; lia | apply not_elem_of_nil].
Defined.


Lemma upload_page_witness :
  ∃ filename text ok errs,
    Some (lit "People.CSV", sample_text) = Some (filename, text) ∧
    endswith (lower (rt := plain) filename) (lit ".csv") = true ∧
    ingest (rt := plain) (env := steady) text empty_db =
      (inr (ok, errs), {| Sqlite.customers := [alice]; Sqlite.sqlite_sequence := 1 |}) ∧
    Some (1, 0) = Some (ok, Z.of_nat (length errs)) ∧ Some [] = Some errs ∧
    ok + Z.of_nat (length errs) =
      Z.of_nat (length (data_rows (rt := plain) (text_lines text))) ∧
    without_id <$> [(1, lit "Alice", lit "alice@example.com", 30,
                     lit "2024-05-07T03:04:00Z")] =
      take 50 (reverse (omap (inserted_record (rt := plain) (env := steady) errs)
                          (enumerate 2 (data_rows (rt := plain) (text_lines text)))) ++
               reverse (Sqlite.select_all empty_db)).
Proof.
  apply (upload_page (rt := plain) (env := steady)
           (Some (lit "People.CSV", sample_text)) empty_db
           [(1, lit "Alice", lit "alice@example.com", 30, lit "2024-05-07T03:04:00Z")]
           (Some (1, 0)) (Some [])
           {| Sqlite.customers := [alice]; Sqlite.sqlite_sequence := 1 |}).
  by vm_compute.
Defined.

Lemma obs_event_accounts_witness :
  ∃ added,
    [alice] = [] ++ added ∧
    (added = [] -> {| Sqlite.customers := [alice]; Sqlite.sqlite_sequence := 1 |} = empty_db) ∧
    (NoDup (emails empty_db) ->
     NoDup (emails {| Sqlite.customers := [alice]; Sqlite.sqlite_sequence := 1 |})) ∧
    ∀ ok errs items,
      (inr (1, 0, [Imported (JStr (lit "uploads")) (lit "people.csv") 1 0])
         : route_error + (Z * Z * list item)) = inr (ok, errs, items) ->
      ok = sum_list (inserted_of <$> items) ∧
      errs = sum_list (errors_of <$> items) ∧
      ok = Z.of_nat (length added).
Proof.
  apply (obs_event_accounts (rt := plain) (store := sample_store)
           (Some (event [(lit "uploads", lit "people.csv")])) empty_db
           (inr (1, 0, [Imported (JStr (lit "uploads")) (lit "people.csv") 1 0]))
           {| Sqlite.customers := [alice]; Sqlite.sqlite_sequence := 1 |}).
  by vm_compute.
Defined.

Lemma line_ends_crlf_or_lf_witness :
  ingest (rt := plain) (env := steady) (crlf sample_text) empty_db =
  ingest (rt := plain) (env := steady) sample_text empty_db.
Proof.
  apply (line_ends_crlf_or_lf (rt := plain) (env := steady) sample_text empty_db).
  apply (bool_decide_unpack (Forall _ sample_text)). by vm_compute.
Defined.

Lemma accepted_email_shape_witness :
  ∃ local domain tld,
    lit "alice@example.com" = local ++ [ord "@"] ++ domain ++ [ord "."] ++ tld ∧
    local ≠ [] ∧ domain ≠ [] ∧ tld ≠ [] ∧
    forallb not_at_space (local ++ domain ++ tld) = true.
Proof.
  apply (accepted_email_shape (rt := plain)
           (row_of "Alice" " Alice@Example.com " "30")
           (lit "Alice") (lit "alice@example.com") 30); by vm_compute.
Defined.
